(** * broth16: a shallow embedding of the Groth16 toy implementation

    The development follows the three TypeScript modules of the repository:
    - [poly.ts]    dense polynomials over the scalar field (coefficient arrays),
    - [qap.ts]     R1CS to QAP conversion, vanishing and solution polynomials,
    - [groth16.ts] trusted setup, prover and verifier.

    Arrays [Fr[]] are [seq]s, indices and lengths are [nat], JavaScript
    exceptions are the [Throw] outcome of [result].  The scalar field [Fr],
    the curve groups and the pairing check come from the external package
    @kevincharm/blstoise; the code is therefore parametrised by records of
    operations, which are instantiated once by an arbitrary field (for the
    theorems) and once by the integers modulo the BLS12-381 scalar order
    (for evaluation on concrete inputs). *)

From Stdlib Require Import ZArith Lia.
From HB Require Import structures.
From mathcomp Require Import boot ssralg poly polydiv ssrint rat.
From mathcomp Require Import ring_tactic field_tactic.

Set Implicit Arguments.
Unset Strict Implicit.
Unset Printing Implicit Defensive.

(** ** JavaScript runtime behaviour used by the code *)

Module Js.

(** The exceptions the code can raise. *)
Inductive error : Type :=
| LengthMismatch                      (* interpolate: 'length mismatch' *)
| SolutionNotZero (i : nat)           (* computeSolutionPoly *)
| RemainderNotZero (x : nat)          (* computeDivisorPoly *)
| InvalidPublicInputs (expected : int) (got : nat)   (* verify *)
| PairingCheckFailed                  (* prove, with shouldCheckProof *)
| TypeError                           (* property access on undefined,
                                         reduce of an empty array *)
| InverseOfZero                       (* Fr.inv on the zero element *)
| InvalidPoint                        (* the package's pairing check:
                                         'Invalid point' *)
| OutOfFuel.                          (* model only: loop bound exhausted *)

Inductive result (A : Type) : Type :=
| Ok (a : A)
| Throw (e : error).
Arguments Throw {A} e.

Definition bind {A B} (m : result A) (k : A -> result B) : result B :=
  match m with
  | Ok a => k a
  | Throw e => Throw e
  end.

Definition throws {A} (m : result A) : bool :=
  if m is Throw _ then true else false.

Fixpoint mapM {A B} (f : A -> result B) (s : seq A) : result (seq B) :=
  match s with
  | [::] => Ok [::]
  | x :: s' => bind (f x) (fun y => bind (mapM f s') (fun ys => Ok (y :: ys)))
  end.

(** [s[i]] followed by a property access: undefined raises a TypeError. *)
Fixpoint get {A} (s : seq A) (i : nat) : result A :=
  match s, i with
  | [::], _ => Throw TypeError
  | x :: _, 0 => Ok x
  | _ :: s', i'.+1 => get s' i'
  end.

(** [s.at(-1)!] followed by a property access. *)
Definition at_last {A} (s : seq A) : result A :=
  if s is x :: s' then Ok (last x s') else Throw TypeError.

(** [s.slice(0, -1)] *)
Definition slice_0_m1 {A} (s : seq A) : seq A := take (size s).-1 s.

(** [s.reduce(f)] without an initial value. *)
Definition reduce1 {A} (f : A -> A -> A) (s : seq A) : result A :=
  if s is x :: s' then Ok (foldl f x s') else Throw TypeError.

(** [for (let i = lo; i < lo + n; i++) st = body(st, i)] *)
Definition for_range {S} (lo n : nat) (body : S -> nat -> S) (st : S) : S :=
  foldl body st (iota lo n).

(** The same loop with a body that may throw. *)
Fixpoint for_rangeM {S} (lo n : nat) (body : S -> nat -> result S) (st : S)
  : result S :=
  if n is n'.+1 then bind (body st lo) (for_rangeM lo.+1 n' body) else Ok st.

End Js.

Import Js.

Declare Scope js_scope.
Delimit Scope js_scope with js.
Notation "x <- m ;; k" := (bind m (fun x => k))
  (at level 100, m at next level, right associativity) : js_scope.
Notation "' p <- m ;; k" := (bind m (fun x => let p := x in k))
  (at level 100, p pattern, m at next level, right associativity) : js_scope.
Local Open Scope js_scope.

(** ** The external interfaces *)

(** Modelled from the spec: the field-element type [Fr] of the external
    package is missing from the repository; these are the operations the
    spec lists for it (zero, one, add, sub, mul, inverse failing on zero,
    exponentiation by a non-negative integer, equality) and the constructor
    [new Fr(n)] from a non-negative integer. *)
Record FrOps (F : Type) : Type := {
  Fr_zero : F;
  Fr_one : F;
  Fr_add : F -> F -> F;
  Fr_sub : F -> F -> F;
  Fr_mul : F -> F -> F;
  Fr_neg : F -> F;
  Fr_inv : F -> option F;
  Fr_exp : F -> nat -> F;
  Fr_equals : F -> F -> bool;
  Fr_new : nat -> F
}.

(** Modelled from the spec: the group element types of the external package
    (generator, scalar multiplication [P.mul(x.value)] by a field element,
    add, negate). *)
Record GroupOps (F G : Type) : Type := {
  generator : G;
  G_mul : G -> F -> G;
  G_add : G -> G -> G;
  G_neg : G -> G
}.

(** ** poly.ts *)

Section Poly.

Variable F : Type.
Variable ops : FrOps F.

Local Notation zero := (Fr_zero ops).
Local Notation one := (Fr_one ops).
Local Notation "x .+ y" := (Fr_add ops x y) (at level 50, left associativity).
Local Notation "x .- y" := (Fr_sub ops x y) (at level 50, left associativity).
Local Notation "x .* y" := (Fr_mul ops x y) (at level 40, left associativity).

Definition inv (x : F) : result F :=
  if Fr_inv ops x is Some y then Ok y else Throw InverseOfZero.

Definition zeroPoly (degree : nat) : seq F := mkseq (fun _ => zero) degree.

(** [result[i] = result[i].op(v)] *)
Definition update (op : F -> F -> F) (result : seq F) (i : nat) (v : F) :=
  set_nth zero result i (op (nth zero result i) v).

Definition addPolys (lhs rhs : seq F) : seq F :=
  let length := maxn (size lhs) (size rhs) in
  let result := mkseq (fun _ => zero) length in
  let result :=
    for_range 0 (size lhs)
      (fun result i => update (Fr_add ops) result i (nth zero lhs i)) result in
  for_range 0 (size rhs)
    (fun result i => update (Fr_add ops) result i (nth zero rhs i)) result.

Definition subPolys (lhs rhs : seq F) : seq F :=
  let length := maxn (size lhs) (size rhs) in
  let result :=
    mkseq (fun i => if i < size lhs then nth zero lhs i else zero) length in
  for_range 0 (size rhs)
    (fun result i => update (Fr_sub ops) result i (nth zero rhs i)) result.

(** [Array.from({ length })] clamps a negative length to 0, which is what the
    truncated predecessor gives for two empty operands. *)
Definition mulPolys (lhs rhs : seq F) : seq F :=
  let length := (size lhs + size rhs).-1 in
  let result := mkseq (fun _ => zero) length in
  for_range 0 (size lhs) (fun result i =>
    for_range 0 (size rhs) (fun result j =>
      update (Fr_add ops) result (i + j) (nth zero lhs i .* nth zero rhs j))
      result) result.

(** The [while] loop of [divPolys]; every iteration shortens the remainder,
    so [fuel] only bounds the number of iterations from above. *)
Fixpoint divPolys_loop (fuel : nat) (rhs result remainder : seq F)
  : Js.result (seq F * seq F) :=
  if size rhs <= size remainder then
    if fuel is fuel'.+1 then
      r_last <- at_last remainder ;;
      q_last <- at_last rhs ;;
      q_inv <- inv q_last ;;
      let leadingFactor := r_last .* q_inv in
      let pos := size remainder - size rhs in
      let result := set_nth zero result pos leadingFactor in
      let spent := zeroPoly pos ++ [:: leadingFactor] in
      let remainder := slice_0_m1 (subPolys remainder (mulPolys rhs spent)) in
      divPolys_loop fuel' rhs result remainder
    else Throw OutOfFuel
  else Ok (result, remainder).

(** [lhs.length - rhs.length + 1] may be negative; [Array.from] then yields
    the empty array, as the truncated subtraction does. *)
Definition divPolys (lhs rhs : seq F) : Js.result (seq F * seq F) :=
  let length := (size lhs).+1 - size rhs in
  let result := mkseq (fun _ => zero) length in
  divPolys_loop (size lhs).+1 rhs result lhs.

Definition evalPoly (p : seq F) (x : F) : F :=
  foldl (fun acc ic => acc .+ (ic.2 .* Fr_exp ops x ic.1)) zero
    (zip (iota 0 (size p)) p).

Definition zpoly (xs : seq F) : seq F :=
  let result := mkseq (fun _ => zero) (size xs).+1 in
  let result := set_nth zero result (size result).-1 one in
  for_range 0 (size xs) (fun result i =>
    let p := (size result - 2) - i in
    let result := set_nth zero result p zero in
    for_range p ((size result).-1 - p) (fun result j =>
      update (Fr_sub ops) result j (nth zero result j.+1 .* nth zero xs i))
      result) result.

Definition interpolate (xs ys : seq F) : Js.result (seq F) :=
  if size xs != size ys then Throw LengthMismatch else
  let root := zpoly xs in
  numerators <-
    mapM (fun x => qr <- divPolys root [:: Fr_neg ops x; one] ;; Ok qr.1) xs ;;
  let denominators :=
    mkseq (fun i => evalPoly (nth [::] numerators i) (nth zero xs i))
      (size xs) in
  invDenValues <- mapM inv denominators ;;
  let r := mkseq (fun _ => zero) (size xs) in
  Ok (for_range 0 (size xs) (fun r i =>
        let ySlice := nth zero ys i .* nth zero invDenValues i in
        for_range 0 (size xs) (fun r j =>
          let n_ij := nth zero (nth [::] numerators i) j in
          if ~~ Fr_equals ops n_ij zero && ~~ Fr_equals ops (nth zero ys i) zero
          then update (Fr_add ops) r j (n_ij .* ySlice)
          else r) r) r).

(** [matrix[j][i]] is undefined ([None]) where row [j] is too short. *)
Definition transpose (T : Type) (matrix : seq (seq T))
  : Js.result (seq (seq (option T))) :=
  let m := size matrix in
  row0 <- get matrix 0 ;;
  let n := size row0 in
  Ok (mkseq (fun i => mkseq (fun j => nth None
                [seq Some x | x <- nth [::] matrix j] i) m) n).

End Poly.

(** ** qap.ts *)

(** Quadratic arithmetic programme. *)
Record QAP (F : Type) : Type := mkQAP {
  l : nat;                (* number of public inputs in the witness vector *)
  u : seq (seq F);        (* Lagrange basis for R1CS "A" gates *)
  v : seq (seq F);        (* Lagrange basis for R1CS "B" gates *)
  w : seq (seq F)         (* Lagrange basis for R1CS "C" gates *)
}.

Section Qap.

Variable F : Type.
Variable ops : FrOps F.

Local Notation zero := (Fr_zero ops).
Local Notation one := (Fr_one ops).

Definition tPoly (degree : nat) : seq F :=
  for_range 1 degree
    (fun t i => mulPolys ops t [:: Fr_neg ops (Fr_new ops i); one]) [:: one].

(** [interpolate(xs, row)] on a row of a transposed matrix.  The entries of
    [ys] are first touched by [ys[i].mul] in the last loop of [interpolate],
    after every other failure, and an undefined one raises a TypeError. *)
Definition interpolate_row (xs : seq F) (row : seq (option F))
  : result (seq F) :=
  r <- interpolate ops xs [seq odflt zero y | y <- row] ;;
  if all isSome row then Ok r else Throw TypeError.

Definition fromR1csToQap (l : nat) (A B C : seq (seq F)) : result (QAP F) :=
  A_t <- transpose A ;;
  B_t <- transpose B ;;
  C_t <- transpose C ;;
  row0 <- get A_t 0 ;;
  let xs := mkseq (fun i => Fr_new ops (i + 1)) (size row0) in
  Upolys <- mapM (interpolate_row xs) A_t ;;
  Vpolys <- mapM (interpolate_row xs) B_t ;;
  Wpolys <- mapM (interpolate_row xs) C_t ;;
  Ok {| l := l; u := Upolys; v := Vpolys; w := Wpolys |}.

(** [mulPolys([witness[i]], row)]: the scalar is only touched when [row] is
    not empty. *)
Definition scaleRow (witness : seq F) (i : nat) (row : seq F)
  : result (seq F) :=
  if row is [::] then Ok (mulPolys ops [:: zero] [::])
  else w_i <- get witness i ;; Ok (mulPolys ops [:: w_i] row).

(** [rows.reduce((acc, row, i) => addPolys(acc, mulPolys([witness[i]], row)), [])] *)
Definition combine (witness : seq F) (rows : seq (seq F)) : result (seq F) :=
  for_rangeM 0 (size rows)
    (fun acc i =>
       term <- scaleRow witness i (nth [::] rows i) ;;
       Ok (addPolys ops acc term)) [::].

Definition computeSolutionPoly (witness : seq F) (qap : QAP F)
  : result (seq F * seq F * seq F) :=
  au <- combine witness (u qap) ;;
  av <- combine witness (v qap) ;;
  aw <- combine witness (w qap) ;;
  let ht := subPolys ops (mulPolys ops au av) aw in
  u0 <- get (u qap) 0 ;;
  _ <- for_rangeM 1 (size u0)
         (fun _ i =>
            if ~~ Fr_equals ops (evalPoly ops ht (Fr_new ops i)) zero
            then Throw (SolutionNotZero i) else Ok tt) tt ;;
  Ok (au, av, ht).

Definition computeDivisorPoly (ht t : seq F) : result (seq F) :=
  qr <- divPolys ops ht t ;;
  let: (h, remainder) := qr in
  _ <- for_rangeM 0 (size remainder)
         (fun _ x =>
            if ~~ Fr_equals ops (nth zero remainder x) zero
            then Throw (RemainderNotZero x) else Ok tt) tt ;;
  Ok h.

End Qap.

(** ** groth16.ts *)

(** Combined phase 1 & 2 trusted setup outputs. *)
Module TrustedSetup.
Record t (G1 G2 : Type) : Type := mk {
  power : nat;
  tauG1 : seq G1;
  tauG2 : seq G2;
  alphaG1 : G1;
  betaG1 : G1;
  betaG2 : G2;
  gammaG2 : G2;
  deltaG1 : G1;
  deltaG2 : G2;
  cTauPublicG1 : seq G1;
  cTauPrivateG1 : seq G1;
  tTauInvDeltaG1 : seq G1
}.
End TrustedSetup.

(** Verification key: a subset of the trusted setup. *)
Module VerificationKey.
Record t (G1 G2 : Type) : Type := mk {
  alphaG1 : G1;
  betaG2 : G2;
  gammaG2 : G2;
  deltaG2 : G2;
  cTauPublicG1 : seq G1
}.
End VerificationKey.

(** The proof triple [[A, C, BG2]] (type [Proof] of the source). *)
Definition ProofTriple (G1 G2 : Type) : Type := (G1 * G1 * G2)%type.

(** The values drawn by [randomFr()] in [setup], in the order of the calls. *)
Record SetupRandomness (F : Type) : Type := mkSetupRandomness {
  tau : F; alpha : F; beta : F; gamma : F; delta : F
}.

Section Groth16.

Variables F G1 G2 : Type.
Variable ops : FrOps F.
Variable g1 : GroupOps F G1.
Variable g2 : GroupOps F G2.
(** Modelled from the spec: the pairing check of the external package takes
    two sequences of G1 and G2 elements and tells whether the product of the
    pairings is the identity of the target group.  The check of the package
    is not total: it raises an error of its own ('Invalid point') on
    arguments it refuses, so a call yields a boolean or an exception. *)
Variable validatePairing : seq G1 -> seq G2 -> result bool.

Local Notation zero := (Fr_zero ops).
Local Notation one := (Fr_one ops).

(** [coeffs.map((x, i) => points[i].mul(x.value)).reduce((acc, p) => acc.add(p))] *)
Definition foldCoeffs (G : Type) (g : GroupOps F G)
    (coeffs : seq F) (points : seq G) : result G :=
  terms <- mapM (fun i => p <- get points i ;;
                          Ok (G_mul g p (nth zero coeffs i)))
             (iota 0 (size coeffs)) ;;
  reduce1 (G_add g) terms.

(** [points.map((p, i) => p.mul(scalars[i].value)).reduce((acc, p) => acc.add(p))] *)
Definition foldPoints (G : Type) (g : GroupOps F G)
    (points : seq G) (scalars : seq F) : result G :=
  terms <- mapM (fun i => x <- get scalars i ;;
                          Ok (G_mul g (nth (generator g) points i) x))
             (iota 0 (size points)) ;;
  reduce1 (G_add g) terms.

Definition setup (rnd : SetupRandomness F) (qap : QAP F)
  : result (TrustedSetup.t G1 G2) :=
  u0 <- get (u qap) 0 ;;
  let degree := size u0 in
  let tauG1 := mkseq (fun i => G_mul g1 (generator g1)
                                 (Fr_exp ops (tau rnd) i)) degree in
  let tauG2 := mkseq (fun i => G_mul g2 (generator g2)
                                 (Fr_exp ops (tau rnd) i)) degree in
  let alphaG1 := G_mul g1 (generator g1) (alpha rnd) in
  let betaG1 := G_mul g1 (generator g1) (beta rnd) in
  let betaG2 := G_mul g2 (generator g2) (beta rnd) in
  let gammaG2 := G_mul g2 (generator g2) (gamma rnd) in
  let deltaG1 := G_mul g1 (generator g1) (delta rnd) in
  let deltaG2 := G_mul g2 (generator g2) (delta rnd) in
  let betaU := [seq [seq Fr_mul ops x (beta rnd) | x <- uPoly]
               | uPoly <- u qap] in
  let alphaV := [seq [seq Fr_mul ops x (alpha rnd) | x <- vPoly]
                | vPoly <- v qap] in
  cG1 <- mapM (fun i =>
                 bu <- get betaU i ;;
                 av <- get alphaV i ;;
                 let w_i := nth [::] (w qap) i in
                 Ok (G_mul g1 (generator g1)
                       (evalPoly ops (addPolys ops (addPolys ops bu av) w_i)
                          (tau rnd))))
           (iota 0 (size (w qap))) ;;
  invGamma <- inv ops (gamma rnd) ;;
  let cTauPublicG1 :=
    [seq G_mul g1 p invGamma | p <- take ((l qap) + 1) cG1] in
  invDelta <- inv ops (delta rnd) ;;
  let cTauPrivateG1 :=
    [seq G_mul g1 p invDelta | p <- drop ((l qap) + 1) cG1] in
  let tx := tPoly ops degree in
  let tTau := evalPoly ops tx (tau rnd) in
  let tTauInvDeltaG1 :=
    [seq G_mul g1 (G_mul g1 ptau tTau) invDelta | ptau <- tauG1] in
  Ok (TrustedSetup.mk degree tauG1 tauG2 alphaG1 betaG1 betaG2 gammaG2
        deltaG1 deltaG2 cTauPublicG1 cTauPrivateG1 tTauInvDeltaG1).

(** [r] and [s] are the two values drawn by [randomFr()] in [prove]. *)
Definition prove (r s : F) (setup : TrustedSetup.t G1 G2) (qap : QAP F)
    (witness : seq F) (shouldCheckProof : bool)
  : result (ProofTriple G1 G2 * VerificationKey.t G1 G2) :=
  let preparedWitness := one :: witness in
  sol <- computeSolutionPoly ops preparedWitness qap ;;
  let: (au, av, ht) := sol in
  sumA <- foldCoeffs g1 au (TrustedSetup.tauG1 setup) ;;
  let A := G_add g1 (G_add g1 (TrustedSetup.alphaG1 setup) sumA)
             (G_mul g1 (TrustedSetup.deltaG1 setup) r) in
  sumBG1 <- foldCoeffs g1 av (TrustedSetup.tauG1 setup) ;;
  let BG1 := G_add g1 (G_add g1 (TrustedSetup.betaG1 setup) sumBG1)
               (G_mul g1 (TrustedSetup.deltaG1 setup) s) in
  sumBG2 <- foldCoeffs g2 av (TrustedSetup.tauG2 setup) ;;
  let BG2 := G_add g2 (G_add g2 (TrustedSetup.betaG2 setup) sumBG2)
               (G_mul g2 (TrustedSetup.deltaG2 setup) s) in
  u0 <- get (u qap) 0 ;;
  h <- computeDivisorPoly ops ht (tPoly ops (size u0)) ;;
  htTauG1 <- foldCoeffs g1 h (TrustedSetup.tTauInvDeltaG1 setup) ;;
  sumC <- foldCoeffs g1 (drop ((l qap) + 1) preparedWitness)
            (TrustedSetup.cTauPrivateG1 setup) ;;
  let negRsDelta :=
    G_neg g1 (G_mul g1 (TrustedSetup.deltaG1 setup) (Fr_mul ops r s)) in
  let C := G_add g1 (G_add g1 (G_add g1 (G_add g1 sumC htTauG1)
                                  (G_mul g1 A s)) (G_mul g1 BG1 r))
             negRsDelta in
  let proof := (A, C, BG2) in
  publicInputsSumG1 <-
    foldPoints g1 (TrustedSetup.cTauPublicG1 setup) preparedWitness ;;
  _ <- (if shouldCheckProof then
          let ps := [:: G_neg g1 A; TrustedSetup.alphaG1 setup;
                        publicInputsSumG1; C] in
          let qs := [:: BG2; TrustedSetup.betaG2 setup;
                        TrustedSetup.gammaG2 setup;
                        TrustedSetup.deltaG2 setup] in
          valid <- validatePairing ps qs ;;
          if ~~ valid then Throw PairingCheckFailed
          else Ok tt
        else Ok tt) ;;
  Ok (proof,
      VerificationKey.mk (TrustedSetup.alphaG1 setup)
        (TrustedSetup.betaG2 setup) (TrustedSetup.gammaG2 setup)
        (TrustedSetup.deltaG2 setup) (TrustedSetup.cTauPublicG1 setup)).

Definition verify (proof : ProofTriple G1 G2) (publicInputs : seq F)
    (vk : VerificationKey.t G1 G2) : result bool :=
  let: (A, C, BG2) := proof in
  let preparedPublicInputs := one :: publicInputs in
  if size preparedPublicInputs != size (VerificationKey.cTauPublicG1 vk) then
    Throw (InvalidPublicInputs
             ((size (VerificationKey.cTauPublicG1 vk))%:Z - 1)%R
             (size publicInputs))
  else
  publicInputsSumG1 <-
    foldPoints g1 (VerificationKey.cTauPublicG1 vk) preparedPublicInputs ;;
  let ps := [:: G_neg g1 A; VerificationKey.alphaG1 vk;
                publicInputsSumG1; C] in
  let qs := [:: BG2; VerificationKey.betaG2 vk; VerificationKey.gammaG2 vk;
                VerificationKey.deltaG2 vk] in
  validatePairing ps qs.

End Groth16.

(** ** The flow of the repository's test: R1CS, QAP, setup, prove, verify *)

Section Pipeline.

Variables F G1 G2 : Type.
Variable ops : FrOps F.
Variable g1 : GroupOps F G1.
Variable g2 : GroupOps F G2.
Variable validatePairing : seq G1 -> seq G2 -> result bool.

(** [verify(proof, witness.slice(0, l), vk)] on the proof and key returned
    by [prove(setup(qap), qap, witness)], with [qap] made from the R1CS. *)
Definition pipeline (rnd : SetupRandomness F) (r s : F) (l : nat)
    (A B C : seq (seq F)) (witness : seq F) (shouldCheckProof : bool)
  : result bool :=
  qap <- fromR1csToQap ops l A B C ;;
  trustedSetup <- setup ops g1 g2 rnd qap ;;
  pv <- prove ops g1 g2 validatePairing r s trustedSetup qap witness
          shouldCheckProof ;;
  verify ops g1 validatePairing pv.1 (take l witness) pv.2.

(** A witness vector (without the constant slot) satisfies the R1CS when
    every row has [(A_k . s) * (B_k . s) = C_k . s] for [s = 1 :: witness]. *)
Definition dot (row s : seq F) : F :=
  foldl (fun acc ab => Fr_add ops acc (Fr_mul ops ab.1 ab.2)) (Fr_zero ops)
    (zip row s).

Definition satisfies (A B C : seq (seq F)) (witness : seq F) : bool :=
  let s := Fr_one ops :: witness in
  all (fun k =>
         Fr_equals ops
           (Fr_mul ops (dot (nth [::] A k) s) (dot (nth [::] B k) s))
           (dot (nth [::] C k) s))
      (iota 0 (size A)).

End Pipeline.

(** ** Instances of the external interfaces *)

(** *** The scalar field of BLS12-381, for evaluation *)

(** JavaScript [bigint] literals; the key [Z] belongs to [int]. *)
Delimit Scope Z_scope with bigint.

Module Bls.

(** Modelled from the spec: the scalar field of the external package is the
    prime field of the curve's scalar order; elements are kept reduced. *)
Definition modulus : Z :=
  0x73eda753299d7d483339d80809a1d80553bda402fffe5bfeffffffff00000001%bigint.

Definition norm (x : Z) : Z := Z.modulo x modulus.

Fixpoint pow_pos (x : Z) (e : positive) : Z :=
  match e with
  | xH => norm x
  | xO e' => let y := pow_pos x e' in norm (Z.mul y y)
  | xI e' => let y := pow_pos x e' in norm (Z.mul x (norm (Z.mul y y)))
  end.

Definition pow (x : Z) (e : Z) : Z :=
  match e with
  | Zpos p => pow_pos x p
  | _ => norm 1
  end.

(** Extended Euclid: [a] and [b] stay congruent to [x0 * v] and [x1 * v],
    where [v] is the element to invert. *)
Fixpoint egcd (fuel : nat) (a b x0 x1 : Z) : Z :=
  if fuel is fuel'.+1 then
    if Z.eqb b 0 then x0
    else egcd fuel' b (Z.modulo a b) x1 (Z.sub x0 (Z.mul (Z.div a b) x1))
  else x0.

(** Modelled from the spec: the inverse fails on the zero element. *)
Definition inverse (x : Z) : option Z :=
  if Z.eqb (norm x) 0 then None
  else Some (norm (egcd 512 modulus (norm x) 0 1)).

Definition Fr : FrOps Z := {|
  Fr_zero := 0%bigint;
  Fr_one := 1%bigint;
  Fr_add := fun x y => norm (Z.add x y);
  Fr_sub := fun x y => norm (Z.sub x y);
  Fr_mul := fun x y => norm (Z.mul x y);
  Fr_neg := fun x => norm (Z.opp x);
  Fr_inv := inverse;
  Fr_exp := fun x n => pow x (Z.of_nat n);
  Fr_equals := fun x y => Z.eqb (norm x) (norm y);
  Fr_new := fun n => norm (Z.of_nat n)
|}.

(** Modelled from the spec: both source groups have the prime order of the
    scalar field, so a point is represented by its discrete logarithm to the
    base of the generator, and the pairing of two points by the product of
    their logarithms. *)
Definition G : GroupOps Z Z := {|
  generator := 1%bigint;
  G_mul := fun P x => norm (Z.mul P x);
  G_add := fun P Q => norm (Z.add P Q);
  G_neg := fun P => norm (Z.opp P)
|}.

(** Modelled from the spec: the pairing check tells whether the product of
    the pairings is the identity of the target group; the check of the
    package refuses the identity element (logarithm zero) as an argument
    and raises 'Invalid point'. *)
Definition validatePairing (ps qs : seq Z) : result bool :=
  if has (fun P => Z.eqb (norm P) 0) ps || has (fun Q => Z.eqb (norm Q) 0) qs
  then Throw InvalidPoint
  else
    Ok (Z.eqb (norm (foldl (fun acc pq => Z.add acc (Z.mul pq.1 pq.2))
                       0%bigint (zip ps qs))) 0).

End Bls.

(** *** An arbitrary field, for the theorems *)

Section FieldInstance.

Local Open Scope ring_scope.
Import GRing.Theory.

Variable F : fieldType.

(** Modelled from the spec: [Fr] is a field whose inverse fails on zero. *)
Definition fieldFr : FrOps F := {|
  Fr_zero := 0;
  Fr_one := 1;
  Fr_add := fun x y => x + y;
  Fr_sub := fun x y => x - y;
  Fr_mul := fun x y => x * y;
  Fr_neg := fun x => - x;
  Fr_inv := fun x => if x == 0 then None else Some x^-1;
  Fr_exp := fun x n => x ^+ n;
  Fr_equals := fun x y => x == y;
  Fr_new := fun n => n%:R
|}.

(** Modelled from the spec: a source group of the pairing is a module over
    the scalar field, [P.mul(x.value)] being the scalar action. *)
Definition moduleG (G : lmodType F) (gen : G) : GroupOps F G := {|
  generator := gen;
  G_mul := fun P x => x *: P;
  G_add := fun P Q => P + Q;
  G_neg := fun P => - P
|}.

(** None of the arguments of a pairing check is the identity element. *)
Definition identity_free (G1 G2 : lmodType F) (ps : seq G1) (qs : seq G2)
  : bool :=
  all (fun P => P != 0) ps && all (fun Q => Q != 0) qs.

(** Modelled from the spec: the pairing check accepts when the sum (in
    additive notation) of the pairings [e p_i q_i] is the identity; the
    check of the package refuses the identity element as an argument and
    raises 'Invalid point'. *)
Definition pairingCheck (G1 G2 GT : lmodType F) (e : G1 -> G2 -> GT)
    (ps : seq G1) (qs : seq G2) : result bool :=
  if identity_free ps qs then Ok (\sum_(pq <- zip ps qs) e pq.1 pq.2 == 0)
  else Throw InvalidPoint.

(** Modelled from the spec: what the theorems assume of a pairing check
    [validatePairing] for the pairing [e]: on arguments none of which is
    the identity it tells whether the sum of the pairings is the identity.
    Nothing is assumed on the other arguments. *)
Definition pairing_correct (G1 G2 GT : lmodType F) (e : G1 -> G2 -> GT)
    (validatePairing : seq G1 -> seq G2 -> result bool) : Prop :=
  forall ps qs, identity_free ps qs ->
    validatePairing ps qs = Ok (\sum_(pq <- zip ps qs) e pq.1 pq.2 == 0).

End FieldInstance.

(** ** The solution polynomials in the words of the specification *)

Section SolutionSpec.

Local Open Scope ring_scope.

Variable F : fieldType.

(** [sum of witness[i] * rows_i], as a polynomial. *)
Definition linear_combination (witness : seq F) (rows : seq (seq F))
  : {poly F} :=
  \sum_(0 <= i < size rows) witness`_i *: Poly (nth [::] rows i).

(** [ht = au * av - aw] *)
Definition solution_poly (witness : seq F) (qap : QAP F) : {poly F} :=
  linear_combination witness (u qap) * linear_combination witness (v qap)
  - linear_combination witness (w qap).

End SolutionSpec.

(** ** Concrete inputs *)

Module Examples.

Definition toPoly (coeffs : seq nat) : seq Z := map Z.of_nat coeffs.

(** One constraint [x * x = x] over the variables [1, x]. *)
Definition A1 : seq (seq Z) := [:: toPoly [:: 0; 1]].
Definition B1 : seq (seq Z) := [:: toPoly [:: 0; 1]].
Definition C1 : seq (seq Z) := [:: toPoly [:: 0; 1]].
Definition witness1 : seq Z := toPoly [:: 1].

(** Two constraints [x * x = x] and [x * 1 = x] over the variables [1, x],
    with [x] public. *)
Definition A2 : seq (seq Z) := [:: toPoly [:: 0; 1]; toPoly [:: 0; 1]].
Definition B2 : seq (seq Z) := [:: toPoly [:: 0; 1]; toPoly [:: 1; 0]].
Definition C2 : seq (seq Z) := [:: toPoly [:: 0; 1]; toPoly [:: 0; 1]].


Definition rnd : SetupRandomness Z :=
  mkSetupRandomness 5%bigint 7%bigint 11%bigint 13%bigint 17%bigint.

Definition run (l : nat) (A B C : seq (seq Z)) (witness : seq Z)
    (shouldCheckProof : bool) : result bool :=
  pipeline Bls.Fr Bls.G Bls.G Bls.validatePairing rnd 19%bigint 23%bigint
    l A B C witness shouldCheckProof.

(** Inputs over the rationals, a field in which the small integers are
    pairwise distinct as they are in the scalar field. *)
Definition ratPoly (coeffs : seq int) : seq rat := [seq c%:~R%R | c <- coeffs].

Definition xs12 : seq rat := ratPoly [:: Posz 1; Posz 2].
Definition ys35 : seq rat := ratPoly [:: Posz 3; Posz 5].
Definition p14 : seq rat := ratPoly [:: Posz 1; Posz 4].
Definition q12 : seq rat := ratPoly [:: Posz 1; Posz 2].
(** [x^2 - 1] and [x - 1] *)
Definition x2m1 : seq rat := ratPoly [:: Negz 0; Posz 0; Posz 1].
Definition xm1 : seq rat := ratPoly [:: Negz 0; Posz 1].
Definition qap1 : QAP rat :=
  mkQAP 0 [:: ratPoly [:: Posz 0]; ratPoly [:: Posz 1]]
    [:: ratPoly [:: Posz 0]; ratPoly [:: Posz 1]]
    [:: ratPoly [:: Posz 0]; ratPoly [:: Posz 1]].
Definition w11 : seq rat := ratPoly [:: Posz 1; Posz 1].

End Examples.

(** ** Well-formed inputs *)

(** An [m] by [n] matrix: [m] rows of [n] entries each. *)
Definition is_matrix (T : Type) (m n : nat) (M : seq (seq T)) : bool :=
  (size M == m) && all (fun row => size row == n) M.

(** The evaluation points [1, ..., m] of the QAP are pairwise distinct field
    elements (in the scalar field this holds for every [m] below the
    characteristic). *)
Definition distinct_points (F : fieldType) (m : nat) : bool :=
  uniq (mkseq (fun i => Fr_new (fieldFr F) (i + 1)) m).

(** A QAP over [n] variables and [m] constraints: [n] basis polynomials in
    each of [u], [v] and [w], stored with [m] coefficients each. *)
Definition wf_qap (T : Type) (n m : nat) (qap : QAP T) : bool :=
  [&& size (u qap) == n, size (v qap) == n, size (w qap) == n,
      all (fun row => size row == m) (u qap),
      all (fun row => size row == m) (v qap)
    & all (fun row => size row == m) (w qap)].

(** Modelled from the spec: the pairing is bilinear, i.e. linear in each
    of its two arguments (the target group is written additively). *)
Definition bilinear (F : fieldType) (G1 G2 GT : lmodType F)
    (e : G1 -> G2 -> GT) : Prop :=
  (forall a P P' Q, e (a *: P + P') Q = a *: e P Q + e P' Q)%R /\
  (forall a P Q Q', e P (a *: Q + Q') = a *: e P Q + e P Q')%R.

(** The scalar [beta * u_i(tau) + alpha * v_i(tau) + w_i(tau)] that [setup]
    hides in the [i]-th element of its C sequence. *)
Definition cTerm (F : fieldType) (rnd : SetupRandomness F) (qap : QAP F)
    (i : nat) : F :=
  (beta rnd * evalPoly (fieldFr F) (nth [::] (u qap) i) (tau rnd)
   + alpha rnd * evalPoly (fieldFr F) (nth [::] (v qap) i) (tau rnd)
   + evalPoly (fieldFr F) (nth [::] (w qap) i) (tau rnd))%R.

(** ** More concrete inputs *)

Module QapExamples.

Import Examples.

(** Two constraints [x * x = x] and [x * 1 = x] over the variables [1, x],
    with [x] private, over the rationals. *)
Definition A2q : seq (seq rat) :=
  [:: ratPoly [:: Posz 0; Posz 1]; ratPoly [:: Posz 0; Posz 1]].
Definition B2q : seq (seq rat) :=
  [:: ratPoly [:: Posz 0; Posz 1]; ratPoly [:: Posz 1; Posz 0]].
Definition C2q : seq (seq rat) :=
  [:: ratPoly [:: Posz 0; Posz 1]; ratPoly [:: Posz 0; Posz 1]].

(** The columns of the three matrices, interpolated at the points 1, 2. *)
Definition qap2 : QAP rat :=
  mkQAP 0
    [:: ratPoly [:: Posz 0; Posz 0]; ratPoly [:: Posz 1; Posz 0]]
    [:: ratPoly [:: Negz 0; Posz 1]; ratPoly [:: Posz 2; Negz 0]]
    [:: ratPoly [:: Posz 0; Posz 0]; ratPoly [:: Posz 1; Posz 0]].

Definition witness1q : seq rat := ratPoly [:: Posz 1].

Definition rndq : SetupRandomness rat :=
  mkSetupRandomness (Posz 5)%:~R%R (Posz 7)%:~R%R (Posz 11)%:~R%R
    (Posz 13)%:~R%R (Posz 17)%:~R%R.

(** Both source groups and the target group are the rationals themselves,
    generated by 1, and the pairing is the product. *)
Definition mulPairing (P Q : rat^o) : rat^o := (P * Q)%R.

(** Two constraints [x * x = out] and [x * 1 = x] over the variables
    [1, out, x], with [out] public: the columns of the three matrices
    interpolated at the points 1, 2, and the witness [out = 4], [x = 2]. *)
Definition qap3q : QAP rat :=
  mkQAP 1
    [:: ratPoly [:: Posz 0; Posz 0]; ratPoly [:: Posz 0; Posz 0];
        ratPoly [:: Posz 1; Posz 0]]
    [:: ratPoly [:: Negz 0; Posz 1]; ratPoly [:: Posz 0; Posz 0];
        ratPoly [:: Posz 2; Negz 0]]
    [:: ratPoly [:: Posz 0; Posz 0]; ratPoly [:: Posz 2; Negz 0];
        ratPoly [:: Negz 0; Posz 1]].

Definition witness42q : seq rat := ratPoly [:: Posz 4; Posz 2].

(** [x^2 - 3x + 2], which vanishes at 1 and 2. *)
Definition x2m3xp2 : seq rat := ratPoly [:: Posz 2; Negz 2; Posz 1].

End QapExamples.

(** * Theory *)

(** Linear arithmetic over [nat] in the boolean style of ssrnat. *)
Ltac nat_hyps :=
  repeat match goal with
  | H : is_true (leq _ _) |- _ => move/leP: H => H
  | H : is_true (_ == _) |- _ => move/eqP: H => H
  | H : is_true (~~ leq _ _) |- _ => rewrite -ltnNge in H
  | H : leq _ _ = false |- _ => move/negbT: H => H
  | H : leq _ _ = true |- _ => move/leP: H => H
  end.
Ltac nat_goal :=
  match goal with
  | |- is_true (leq _ _) => apply/leP
  | |- is_true (_ == _) => apply/eqP
  | |- is_true (~~ leq _ _) => rewrite -ltnNge; apply/leP
  | |- leq _ _ = false => apply/negbTE; rewrite -ltnNge; apply/leP
  | |- leq _ _ = true => apply/leP
  | |- _ => idtac
  end.
Ltac nat_lia :=
  intros; nat_hyps; nat_goal;
  repeat match goal with
  | H : @eq nat _ _ |- _ => revert H
  | H : le _ _ |- _ => revert H
  | H : lt _ _ |- _ => revert H
  end;
  rewrite ?maxnE ?minnE -?plusE -?minusE -?multE; lia.

(** ** Loops and the runtime helpers *)

Section Loops.

Variable S : Type.

Lemma for_rangeSr lo n (body : S -> nat -> S) st :
  for_range lo n.+1 body st = body (for_range lo n body st) (lo + n).
Proof. by rewrite /for_range -addn1 iotaD foldl_cat. Qed.

(** The invariant rule for a [for] loop. *)
Lemma for_range_inv (P : nat -> S -> Prop) lo n body st :
  P 0 st ->
  (forall i s, i < n -> P i s -> P i.+1 (body s (lo + i))) ->
  P n (for_range lo n body st).
Proof.
move=> P0; elim: n => [|n IH] step //.
rewrite for_rangeSr; apply: (step) => //.
by apply: IH => i s lt_in; apply: (step); apply: ltnW.
Qed.

Lemma for_rangeM_ok lo n (body : S -> nat -> result S) (f : S -> nat -> S) st :
  (forall i s, i < n -> body s (lo + i) = Ok (f s (lo + i))) ->
  for_rangeM lo n body st = Ok (for_range lo n f st).
Proof.
elim: n lo st => [|n IH] lo st Hb //=.
rewrite -[lo in body st lo]addn0 Hb //= addn0 /for_range /= -/(for_range _ _ _ _).
by apply: IH => i s lt_in; rewrite addSnnS Hb.
Qed.

End Loops.

Lemma get_nth A (x0 : A) (s : seq A) i : i < size s -> get s i = Ok (nth x0 s i).
Proof. by elim: s i => [|x s IH] [|i] //= /IH. Qed.

Lemma get_default A (s : seq A) i : size s <= i -> get s i = Throw TypeError.
Proof. by elim: s i => [|x s IH] [|i] //= /IH. Qed.

Lemma mapM_ok (A : eqType) B (f : A -> result B) (g : A -> B) (s : seq A) :
  {in s, forall x, f x = Ok (g x)} -> mapM f s = Ok (map g s).
Proof.
elim: s => [|x s IH] // Hf.
rewrite /= Hf ?mem_head //= IH // => y Hy.
by apply: Hf; rewrite in_cons Hy orbT.
Qed.

Lemma size_slice_0_m1 A (s : seq A) : size (slice_0_m1 s) = (size s).-1.
Proof. by rewrite /slice_0_m1 size_take; case: (size s) => [|n] //; rewrite ltnSn. Qed.

(** ** Coefficient arrays as polynomials *)

Section PolyTheory.

Local Open Scope ring_scope.
Import GRing.Theory.

Variable F : fieldType.

Local Notation ops := (fieldFr F).
Local Notation update := (update ops).
Local Notation addPolys := (addPolys ops).
Local Notation subPolys := (subPolys ops).
Local Notation mulPolys := (mulPolys ops).
Local Notation divPolys := (divPolys ops).
Local Notation divPolys_loop := (divPolys_loop ops).
Local Notation evalPoly := (evalPoly ops).
Local Notation zeroPoly := (zeroPoly ops).

Implicit Types (p q s : seq F) (x c : F).

Lemma Poly_set_nth s k c :
  Poly (set_nth 0 s k c) = Poly s + (c - s`_k) *: 'X^k.
Proof.
apply/polyP => i; rewrite coefD coefZ coefXn !coef_Poly nth_set_nth /=.
by case: eqP => [->|_]; rewrite ?mulr1 ?mulr0 ?addr0 //; ring.
Qed.

Lemma Poly_update_add s k c :
  Poly (update (Fr_add ops) s k c) = Poly s + c *: 'X^k.
Proof. by rewrite /update Poly_set_nth /= [_ + c]addrC addrK. Qed.

Lemma Poly_update_sub s k c :
  Poly (update (Fr_sub ops) s k c) = Poly s - c *: 'X^k.
Proof.
by rewrite /update Poly_set_nth /= -scaleNr; congr (_ + _ *: _); ring.
Qed.

Lemma size_update op s k c : (k < size s)%N -> size (update op s k c) = size s.
Proof. by move=> lt_ks; rewrite size_set_nth; apply/maxn_idPr. Qed.

Lemma Poly_zeros n : Poly (mkseq (fun _ => 0 : F) n) = 0.
Proof.
apply/polyP => i; rewrite coef_Poly coef0.
by case: (ltnP i n) => Hi; [rewrite nth_mkseq | rewrite nth_default // size_mkseq].
Qed.

Lemma PolyE s : Poly s = \sum_(0 <= i < size s) s`_i *: 'X^i.
Proof.
rewrite big_mkord -poly_def; apply/polyP => i; rewrite coef_Poly coef_poly.
by case: ltnP => // /(nth_default 0).
Qed.

Lemma PolyE_le s n :
  (size s <= n)%N -> \sum_(0 <= i < n) s`_i *: 'X^i = Poly s.
Proof.
move=> le_sn; rewrite big_mkord -poly_def; apply/polyP => i.
rewrite coef_Poly coef_poly; case: ltnP => // le_ni.
by rewrite nth_default //; apply: leq_trans le_ni.
Qed.

(** A loop that adds [f i] at index [g i], for [i] from [lo]. *)
Lemma Poly_for_add lo n (f : nat -> F) (g : nat -> nat) s :
  Poly (for_range lo n (fun r i => update (Fr_add ops) r (g i) (f i)) s)
  = Poly s + \sum_(lo <= i < lo + n) f i *: 'X^(g i).
Proof.
elim: n => [|n IH]; first by rewrite addn0 big_geq // addr0.
by rewrite for_rangeSr Poly_update_add IH addnS big_nat_recr ?leq_addr //= addrA.
Qed.

Lemma Poly_for_sub lo n (f : nat -> F) (g : nat -> nat) s :
  Poly (for_range lo n (fun r i => update (Fr_sub ops) r (g i) (f i)) s)
  = Poly s - \sum_(lo <= i < lo + n) f i *: 'X^(g i).
Proof.
elim: n => [|n IH]; first by rewrite addn0 big_geq // subr0.
rewrite for_rangeSr Poly_update_sub IH addnS big_nat_recr ?leq_addr //=.
by rewrite opprD addrA.
Qed.

(** A loop whose body adds [inc i] to the polynomial of the array. *)
Lemma Poly_for_range lo n (body : seq F -> nat -> seq F)
    (inc : nat -> {poly F}) s :
  (forall r i, Poly (body r i) = Poly r + inc i) ->
  Poly (for_range lo n body s) = Poly s + \sum_(lo <= i < lo + n) inc i.
Proof.
move=> Hb; elim: n => [|n IH]; first by rewrite addn0 big_geq // addr0.
by rewrite for_rangeSr Hb IH addnS big_nat_recr ?leq_addr //= addrA.
Qed.

Lemma size_for_range lo n (body : seq F -> nat -> seq F) s :
  (forall r i, size r = size s -> (i < n)%N ->
     size (body r (lo + i)%N) = size s) ->
  size (for_range lo n body s) = size s.
Proof.
move=> Hb; apply: (for_range_inv (P := fun _ r => size r = size s)) => //.
by move=> i r lt_in Hr; apply: Hb.
Qed.

(** *** addPolys *)

Lemma size_addPolys p q : size (addPolys p q) = maxn (size p) (size q).
Proof.
by rewrite /addPolys !size_for_range ?size_mkseq // => r i Hr Hi;
  rewrite add0n size_update Hr // leq_max Hi ?orbT.
Qed.

Lemma Poly_addPolys p q : Poly (addPolys p q) = Poly p + Poly q.
Proof. by rewrite /addPolys !Poly_for_add Poly_zeros add0r !add0n -!PolyE. Qed.

Lemma nth_addPolys p q i : (addPolys p q)`_i = p`_i + q`_i.
Proof. by rewrite -[LHS]coef_Poly Poly_addPolys coefD !coef_Poly. Qed.

(** *** subPolys *)

Lemma Poly_pad p n :
  (size p <= n)%N ->
  Poly (mkseq (fun i => if (i < size p)%N then p`_i else 0) n) = Poly p.
Proof.
move=> le_pn; apply/polyP => i; rewrite !coef_Poly.
case: (ltnP i n) => Hi.
  by rewrite nth_mkseq //; case: ltnP => // /(nth_default 0).
by rewrite !nth_default ?size_mkseq //; apply: leq_trans Hi.
Qed.

Lemma size_subPolys p q : size (subPolys p q) = maxn (size p) (size q).
Proof.
rewrite /subPolys size_for_range ?size_mkseq // => r i Hr Hi.
by rewrite add0n size_update Hr // leq_max Hi orbT.
Qed.

Lemma Poly_subPolys p q : Poly (subPolys p q) = Poly p - Poly q.
Proof.
by rewrite /subPolys Poly_for_sub add0n -PolyE Poly_pad // leq_maxl.
Qed.

Lemma nth_subPolys p q i : (subPolys p q)`_i = p`_i - q`_i.
Proof. by rewrite -[LHS]coef_Poly Poly_subPolys coefB !coef_Poly. Qed.

End PolyTheory.

Section PolyTheory2.

Local Open Scope ring_scope.
Import GRing.Theory.

Variable F : fieldType.

Local Notation ops := (fieldFr F).
Local Notation update := (update ops).
Local Notation addPolys := (addPolys ops).
Local Notation subPolys := (subPolys ops).
Local Notation mulPolys := (mulPolys ops).
Local Notation evalPoly := (evalPoly ops).

Implicit Types (p q s : seq F) (x c : F).

(** *** mulPolys *)

Lemma size_mulPolys p q : size (mulPolys p q) = (size p + size q).-1.
Proof.
rewrite /mulPolys size_for_range ?size_mkseq // => r i Hr Hi.
rewrite size_for_range // => r' j Hr' Hj.
by rewrite size_update Hr' Hr // !add0n; nat_lia.
Qed.

Lemma Poly_mulPolys p q : Poly (mulPolys p q) = Poly p * Poly q.
Proof.
rewrite /mulPolys.
set body := (X in for_range _ _ X).
have loop n s : Poly (for_range 0 n body s) =
    Poly s + \sum_(0 <= i < n) \sum_(0 <= j < size q)
               (p`_i * q`_j) *: 'X^(i + j).
  elim: n => [|n IH]; first by rewrite big_geq // addr0.
  rewrite for_rangeSr /body add0n.
  rewrite (Poly_for_add _ _ (fun j => p`_n * q`_j) (addn n)) IH.
  by rewrite big_nat_recr //= add0n addrA.
rewrite loop Poly_zeros add0r [in RHS]PolyE [Poly q]PolyE big_distrlr /=.
apply: eq_bigr => i _; apply: eq_bigr => j _.
by rewrite -scalerAl -scalerAr scalerA exprD.
Qed.

Lemma nth_mulPolys_scalar c q i : (mulPolys [:: c] q)`_i = c * q`_i.
Proof.
rewrite -coef_Poly Poly_mulPolys /= cons_poly_def mul0r add0r.
by rewrite coefCM coef_Poly.
Qed.

(** *** evalPoly *)

Lemma evalPolyE p x : evalPoly p x = (Poly p).[x].
Proof.
rewrite horner_Poly /evalPoly.
have loop k acc : foldl (fun a ic => Fr_add ops a (Fr_mul ops ic.2 (Fr_exp ops x ic.1)))
    acc (zip (iota k (size p)) p) = acc + x ^+ k * horner_rec p x.
  elim: p k acc => [|a p IH] k acc /=; first by rewrite mulr0 addr0.
  by rewrite IH exprS; ring.
by rewrite loop expr0 mul1r add0r.
Qed.

End PolyTheory2.

(** ** divPolys *)

Section DivGeneric.

Variable F : Type.
Variable ops : FrOps F.

(** Nothing is computed when the dividend is shorter than the divisor. *)
Lemma divPolys_small (p q : seq F) :
  size p < size q -> divPolys ops p q = Ok ([::], p).
Proof.
move=> lt_pq; rewrite /divPolys /= leqNgt lt_pq /=.
by move: lt_pq; rewrite -subn_eq0 => /eqP ->.
Qed.

End DivGeneric.

Section DivTheory.

Local Open Scope ring_scope.
Import GRing.Theory.

Variable F : fieldType.

Local Notation ops := (fieldFr F).
Local Notation addPolys := (addPolys ops).
Local Notation subPolys := (subPolys ops).
Local Notation mulPolys := (mulPolys ops).
Local Notation divPolys := (divPolys ops).
Local Notation divPolys_loop := (divPolys_loop ops).
Local Notation zeroPoly := (zeroPoly ops).

Implicit Types (p q s : seq F) (x c : F).

Lemma at_lastE s : (0 < size s)%N -> at_last s = Ok s`_(size s).-1.
Proof. by case: s => [|a s] //= _; rewrite (last_nth 0). Qed.

Lemma inv_unit c : c != 0 -> inv ops c = Ok c^-1.
Proof. by rewrite /inv /= => /negbTE ->. Qed.

Lemma inv_zero : inv ops 0 = Throw InverseOfZero.
Proof. by rewrite /inv /= eqxx. Qed.

Lemma size_take_pred A (s : seq A) : size (take (size s).-1 s) = (size s).-1.
Proof. by rewrite size_take; case: (size s) => // n; rewrite ltnSn. Qed.

Lemma Poly_slice s : s`_(size s).-1 = 0 -> Poly (slice_0_m1 s) = Poly s.
Proof.
move=> s0; apply/polyP => i; rewrite !coef_Poly /slice_0_m1.
case: (ltngtP i (size s).-1) => [lt_i|lt_i|->].
- by rewrite nth_take.
- rewrite !nth_default ?size_take_pred //; first exact: ltnW.
  by move: lt_i; case: (size s).
- by rewrite s0 nth_default // size_take_pred.
Qed.

Lemma Poly_spent n c : Poly (zeroPoly n ++ [:: c]) = c *: 'X^n.
Proof.
apply/polyP => i; rewrite coef_Poly coefZ coefXn nth_cat size_mkseq.
case: ltngtP => [lt_in|lt_ni|->]; rewrite ?mulr0 ?mulr1 ?subnn //.
  by rewrite nth_mkseq.
by rewrite nth_default //= subn_gt0.
Qed.

Lemma divPolys_loopP fuel q res rem :
  (0 < size q)%N -> q`_(size q).-1 != 0 ->
  (size rem < fuel + size q)%N ->
  (size rem < size res + size q)%N ->
  (forall k, (k + size q <= size rem)%N -> res`_k = 0) ->
  exists quot rem',
    [/\ divPolys_loop fuel q res rem = Ok (quot, rem'),
        Poly quot * Poly q + Poly rem' = Poly res * Poly q + Poly rem,
        size quot = size res
      & size rem' = minn (size rem) (size q).-1].
Proof.
move=> q_gt0 lc_neq0.
elim: fuel res rem => [|fuel IH] res rem.
  rewrite add0n => lt_rq _ _; exists res, rem.
  rewrite /= leqNgt lt_rq /=; split=> //.
  by apply/esym/minn_idPl; rewrite -ltnS prednK.
move=> Hfuel Hres Hzero /=; case: (leqP (size q) (size rem)) => [le_qr|lt_rq]; last first.
  exists res, rem; split=> //.
  by apply/esym/minn_idPl; rewrite -ltnS prednK.
have r_gt0 : (0 < size rem)%N by exact: leq_trans le_qr.
rewrite !at_lastE //= inv_unit //=.
set lf := rem`_(size rem).-1 * _.
set pos := (size rem - size q)%N.
set res' := set_nth _ res pos lf.
set spent := _ ++ _.
set rem1 := subPolys _ _.
have sz_spent : size spent = pos.+1 by rewrite size_cat size_mkseq addn1.
have sz_rem1 : size rem1 = size rem.
  by rewrite size_subPolys size_mulPolys sz_spent /pos; nat_lia.
have top0 : rem1`_(size rem1).-1 = 0.
  rewrite sz_rem1 nth_subPolys -[X in _ - X]coef_Poly Poly_mulPolys Poly_spent.
  rewrite -scalerAr coefZ coefMXn ifF; first by rewrite /pos; nat_lia.
  have -> : ((size rem).-1 - pos = (size q).-1)%N by rewrite /pos; nat_lia.
  by rewrite /lf coef_Poly; field.
have Prem1 : Poly (slice_0_m1 rem1) = Poly rem - (lf *: 'X^pos) * Poly q.
  by rewrite Poly_slice // Poly_subPolys Poly_mulPolys Poly_spent mulrC.
have pos_lt : (pos < size res)%N by rewrite /pos; nat_lia.
have sz_res' : size res' = size res.
  by rewrite size_set_nth; apply/maxn_idPr.
have [||k Hk|quot [rem' [Hloop Heq Hsz Hszr]]] := IH res' (slice_0_m1 rem1).
- by rewrite size_slice_0_m1 sz_rem1; nat_lia.
- by rewrite size_slice_0_m1 sz_rem1 sz_res'; nat_lia.
- move: Hk; rewrite size_slice_0_m1 sz_rem1 => Hk.
  rewrite nth_set_nth /= ifF; last by apply: Hzero; nat_lia.
  by apply/negbTE/eqP => Ek; move: Hk; rewrite Ek /pos; nat_lia.
exists quot, rem'; split=> //.
- rewrite Heq Prem1 Poly_set_nth Hzero; first by rewrite /pos; nat_lia.
  by rewrite subr0; ring.
- by rewrite Hsz.
- by rewrite Hszr size_slice_0_m1 sz_rem1; nat_lia.
Qed.

(** [divPolys] on a divisor with an invertible leading coefficient. *)
Lemma divPolysP p q :
  (0 < size q)%N -> q`_(size q).-1 != 0 ->
  exists quot rem,
    [/\ divPolys p q = Ok (quot, rem),
        Poly quot * Poly q + Poly rem = Poly p,
        size quot = ((size p).+1 - size q)%N
      & size rem = minn (size p) (size q).-1].
Proof.
move=> q_gt0 lc_neq0.
have [||k _|quot [rem [Hloop Heq Hsz Hszr]]] :=
  @divPolys_loopP (size p).+1 q (mkseq (fun _ => 0) ((size p).+1 - size q)) p
    q_gt0 lc_neq0.
- by nat_lia.
- by rewrite size_mkseq; nat_lia.
- case: (ltnP k ((size p).+1 - size q)) => Hk; first by rewrite nth_mkseq.
  by rewrite nth_default // size_mkseq.
exists quot, rem; split=> //.
  by rewrite Heq Poly_zeros mul0r add0r.
by rewrite Hsz size_mkseq.
Qed.

End DivTheory.

(** ** tPoly *)

Section VanishingTheory.

Local Open Scope ring_scope.
Import GRing.Theory.

Variable F : fieldType.

Local Notation ops := (fieldFr F).
Local Notation mulPolys := (mulPolys ops).
Local Notation evalPoly := (evalPoly ops).
Local Notation tPoly := (tPoly ops).

Lemma Poly_XsubC (c : F) : Poly [:: - c; 1] = 'X - c%:P.
Proof.
by rewrite /= !cons_poly_def mul0r add0r polyC1 mul1r polyCN.
Qed.

Lemma tPolyS m :
  tPoly m.+1 = mulPolys (tPoly m) [:: - (m.+1)%:R; 1].
Proof. by rewrite /tPoly for_rangeSr add1n. Qed.

Lemma size_tPoly m : size (tPoly m) = m.+1.
Proof.
elim: m => [|m IH] //; rewrite tPolyS size_mulPolys IH /=.
by rewrite addn2.
Qed.

Lemma Poly_tPoly m :
  Poly (tPoly m) = \prod_(k <- iota 1 m) ('X - (k%:R)%:P).
Proof.
elim: m => [|m IH]; first by rewrite big_nil /= cons_poly_def mul0r add0r polyC1.
rewrite tPolyS Poly_mulPolys IH Poly_XsubC.
by rewrite -(addn1 m) iotaD big_cat /= big_seq1 [(1 + m)%N]addnC.
Qed.

Lemma evalPoly_tPoly m x :
  evalPoly (tPoly m) x = \prod_(k <- iota 1 m) (x - k%:R).
Proof.
rewrite evalPolyE Poly_tPoly horner_prod.
by apply: eq_bigr => k _; rewrite hornerXsubC.
Qed.

Lemma lead_tPoly m : (tPoly m)`_m = 1.
Proof.
rewrite -coef_Poly Poly_tPoly.
have := monic_prod_XsubC (iota 1 m) xpredT (fun k => k%:R : F).
by rewrite monicE lead_coefE size_prod_XsubC size_iota /= => /eqP.
Qed.

Lemma tPoly_root m x :
  (evalPoly (tPoly m) x == 0) = has (fun k => x == k%:R) (iota 1 m).
Proof.
rewrite evalPoly_tPoly prodf_seq_eq0; apply: eq_has => k /=.
by rewrite subr_eq0.
Qed.

End VanishingTheory.

(** ** zpoly and interpolate *)

Section InterpolationTheory.

Local Open Scope ring_scope.
Import GRing.Theory.

Variable F : fieldType.

Local Notation ops := (fieldFr F).
Local Notation update := (update ops).
Local Notation mulPolys := (mulPolys ops).
Local Notation divPolys := (divPolys ops).
Local Notation evalPoly := (evalPoly ops).
Local Notation zpoly := (zpoly ops).
Local Notation interpolate := (interpolate ops).

Implicit Types (p q s xs ys : seq F) (x c : F).

(** The inner loop of [zpoly] reads the not yet updated entry [j + 1]. *)
Lemma zpoly_inner s lo m x :
  (lo + m <= size s)%N ->
  let r := for_range lo m
             (fun r j => update (Fr_sub ops) r j (r`_j.+1 * x)) s in
  size r = size s /\
  forall j, r`_j = if (lo <= j < lo + m)%N then s`_j - s`_j.+1 * x else s`_j.
Proof.
elim: m => [|m IH] Hm /=.
  by split=> // j; rewrite addn0; case: ifP => //; case: leqP => //; case: ltnP.
have [|sz_r nth_r] := IH; first by nat_lia.
rewrite for_rangeSr; split.
  by rewrite size_update sz_r //; nat_lia.
move=> j; rewrite /update nth_set_nth /= !nth_r.
case: (eqVneq j (lo + m)%N) => [->|ne_j].
  by rewrite ltnn andbF [(_.+1 < _)%N]ltnNge leqnSn andbF leq_addr addnS ltnSn.
by rewrite addnS ltnS [(j <= _)%N]leq_eqVlt (negbTE ne_j).
Qed.

Lemma zpolyP xs :
  size (zpoly xs) = (size xs).+1 /\
  Poly (zpoly xs) = \prod_(x <- xs) ('X - x%:P).
Proof.
rewrite /zpoly; set n := size xs; set r0 := set_nth _ _ _ _.
have sz_r0 : size r0 = n.+1.
  by rewrite /r0 size_set_nth size_mkseq /= maxnn.
have P_r0 : Poly r0 = 'X^n.
  by rewrite /r0 Poly_set_nth Poly_zeros add0r size_mkseq /= nth_mkseq // subr0 scale1r.
pose Q i : {poly F} := \prod_(x <- take i xs) ('X - x%:P).
set body := (X in for_range _ _ X).
suff [sz_r ->] : size (for_range 0 n body r0) = n.+1 /\
    Poly (for_range 0 n body r0) = 'X^(n - n) * Q n.
  by split=> //; rewrite subnn expr0 mul1r /Q take_size.
apply: (for_range_inv (P := fun i r => size r = n.+1 /\
                          Poly r = 'X^(n - i) * Q i)).
  by rewrite subn0 /Q take0 big_nil mulr1.
move=> i r lt_in [sz_r P_r]; rewrite add0n /body sz_r.
set lo := (n.+1 - 2 - i)%N.
have Hlo : (lo + i.+1 = n)%N by rewrite /lo; nat_lia.
have nth_r j : r`_j = if (j < lo.+1)%N then 0 else (Q i)`_(j - lo.+1).
  by rewrite -coef_Poly P_r coefXnM; have -> : (n - i = lo.+1)%N by nat_lia.
set r1 := set_nth _ r lo _.
have sz_r1 : size r1 = n.+1.
  by rewrite /r1 size_set_nth sz_r; apply/maxn_idPr; nat_lia.
have nth_r1 j : r1`_j = r`_j.
  rewrite /r1 nth_set_nth /=; case: eqP => // ->.
  by rewrite nth_r ltnSn.
have [|sz_R nth_R] :=
  @zpoly_inner r1 lo ((size r1).-1 - lo) xs`_i.
  by rewrite sz_r1 /=; nat_lia.
split; first by rewrite sz_R.
have -> : (n - i.+1 = lo)%N by nat_lia.
have -> : Q i.+1 = Q i * ('X - (xs`_i)%:P).
  by rewrite /Q (take_nth 0) // -cats1 big_cat /= big_seq1.
have sz_Q : size (Q i) = i.+1.
  by rewrite /Q size_prod_XsubC size_take lt_in.
apply/polyP => j; rewrite coef_Poly nth_R !nth_r1 !nth_r coefXnM.
rewrite mulrBr coefB coefMX coefMC sz_r1 /=.
case: (ltnP j lo) => [lt_j|le_j] /=.
  by rewrite ifT //; nat_lia.
have -> : (lo + (n - lo) = n)%N by nat_lia.
have -> : (j.+1 < lo.+1)%N = false by nat_lia.
have -> : (j.+1 - lo.+1 = j - lo)%N by nat_lia.
case: (eqVneq j lo) => [->|ne_j].
  by rewrite subnn ltnSn ifT //; nat_lia.
have -> : (j < lo.+1)%N = false by move/eqP: ne_j; nat_lia.
have -> : (j - lo == 0)%N = false by apply/negbTE; move/eqP: ne_j; rewrite subn_eq0 -ltnNge; nat_lia.
have -> : (j - lo.+1 = (j - lo).-1)%N by nat_lia.
case: (ltnP j n) => // le_nj.
rewrite [(Q i)`_(j - lo)]nth_default ?mul0r ?subr0 // sz_Q; nat_lia.
Qed.

Lemma size_zpoly xs : size (zpoly xs) = (size xs).+1.
Proof. by have [] := zpolyP xs. Qed.

Lemma Poly_zpoly xs : Poly (zpoly xs) = \prod_(x <- xs) ('X - x%:P).
Proof. by have [] := zpolyP xs. Qed.

(** The [i]-th numerator of [interpolate]: the quotient of the root
    polynomial by [x - xs_i]. *)
Lemma numeratorP xs x :
  uniq xs -> x \in xs ->
  exists num,
    [/\ divPolys (zpoly xs) [:: - x; 1] = Ok (num, [:: 0]),
        size num = size xs
      & Poly num = \prod_(y <- xs | y != x) ('X - y%:P)].
Proof.
move=> uniq_xs x_in.
have [//||num [rem [Hdiv Heq sz_num sz_rem]]] :=
  @divPolysP F (zpoly xs) [:: - x; 1]; first by rewrite /= oner_neq0.
move: sz_num sz_rem Heq; rewrite size_zpoly Poly_zpoly Poly_XsubC.
rewrite [size [:: _; _]]/= subSS subn1 /= => sz_num.
case: rem Hdiv => [|c [|? ?]] //= Hdiv _ Heq.
have c0 : c = 0.
  have := congr1 (fun p : {poly F} => p.[x]) Heq.
  rewrite hornerD hornerM hornerXsubC subrr mulr0 add0r cons_poly_def mul0r.
  rewrite add0r hornerC => ->; apply/eqP.
  by rewrite -[_ == 0]/(root _ x) root_prod_XsubC.
exists num; split; rewrite -?c0 //.
move: Heq; rewrite c0 cons_poly_def mul0r add0r addr0.
rewrite (bigD1_seq x) //= [X in _ = X]mulrC.
by apply: mulIf; rewrite polyXsubC_eq0.
Qed.

Lemma numerator_eval xs x z :
  uniq xs -> x \in xs -> z \in xs ->
  (\prod_(y <- xs | y != x) ('X - y%:P)).[z] =
  (if z == x then \prod_(y <- xs | y != x) (x - y) else 0) /\
  \prod_(y <- xs | y != x) (x - y) != 0.
Proof.
move=> uniq_xs x_in z_in; split; last first.
  rewrite prodf_seq_neq0; apply/allP => y _; apply/implyP.
  by rewrite subr_eq0 eq_sym.
rewrite horner_prod; case: eqP => [->|/eqP ne_zx].
  by apply: eq_bigr => y _; rewrite hornerXsubC.
apply/eqP; rewrite prodf_seq_eq0; apply/hasP; exists z => //.
by rewrite ne_zx hornerXsubC subrr eqxx.
Qed.

(** Lagrange interpolation on pairwise distinct points. *)
Lemma interpolateP xs ys :
  uniq xs -> size xs = size ys ->
  exists r,
    [/\ interpolate xs ys = Ok r, size r = size xs
      & forall i, (i < size xs)%N -> evalPoly r xs`_i = ys`_i].
Proof.
move=> uniq_xs sz_eq; rewrite /interpolate sz_eq eqxx /= -sz_eq.
set n := size xs.
pose g x : seq F :=
  if divPolys (zpoly xs) [:: - x; 1] is Ok qr then qr.1 else [::].
have Hg x : x \in xs ->
    [/\ divPolys (zpoly xs) [:: - x; 1] = Ok (g x, [:: 0]), size (g x) = n
      & Poly (g x) = \prod_(y <- xs | y != x) ('X - y%:P)].
  move=> x_in; have [num [Hd sz Pn]] := numeratorP uniq_xs x_in.
  by rewrite /g Hd.
rewrite (mapM_ok (g := g)) /=; first by move=> x /Hg [-> _ _].
set nums := [seq g x | x <- xs].
set dens := mkseq _ n.
have nth_nums i : (i < n)%N -> nth [::] nums i = g xs`_i.
  by move=> lt_in; rewrite (nth_map 0).
have nth_dens i : (i < n)%N ->
    dens`_i = \prod_(y <- xs | y != xs`_i) (xs`_i - y) /\ dens`_i != 0.
  move=> lt_in; rewrite /dens nth_mkseq // nth_nums // evalPolyE.
  have x_in : xs`_i \in xs by rewrite mem_nth.
  have [_ _ ->] := Hg _ x_in.
  by have [-> ?] := numerator_eval uniq_xs x_in x_in; rewrite eqxx.
rewrite (mapM_ok (g := fun d => d^-1)) /=.
  move=> d /(nthP 0) [i]; rewrite size_mkseq => lt_in <-.
  by rewrite inv_unit //; have [] := nth_dens i lt_in.
set body := (X in for_range _ _ X); set r0 := mkseq _ n.
exists (for_range 0 n body r0); split=> //.
  rewrite size_for_range ?size_mkseq // => r i sz_r lt_in; rewrite /body.
  rewrite size_for_range // => r' j sz_r' lt_jn.
  by case: ifP => // _; rewrite size_update sz_r' sz_r //= add0n size_mkseq.
move=> k lt_kn; rewrite evalPolyE.
pose inc i : {poly F} :=
  (ys`_i * [seq d^-1 | d <- dens]`_i) *: Poly (nth [::] nums i).
have sz_nums i : (size (nth [::] nums i) <= n)%N.
  case: (ltnP i n) => lt_in; last by rewrite nth_default // size_map.
  by rewrite nth_nums //; have [_ -> _] := Hg xs`_i (mem_nth 0 lt_in).
rewrite (Poly_for_range _ _ (inc := inc) _); last first.
  rewrite Poly_zeros add0r add0n horner_sum /inc.
  rewrite big_mkord (bigD1 (Ordinal lt_kn)) //= big1 ?addr0.
    move=> i ne_ik; rewrite hornerZ nth_nums //.
    have x_in : xs`_i \in xs by rewrite mem_nth.
    have [_ _ ->] := Hg _ x_in.
    have [-> _] := numerator_eval uniq_xs x_in (mem_nth 0 lt_kn).
    rewrite nth_uniq // ifF ?mulr0 //.
    by apply/negbTE; move: ne_ik; rewrite eq_sym.
  rewrite hornerZ nth_nums // (nth_map 0) ?size_mkseq //.
  have x_in : xs`_k \in xs by rewrite mem_nth.
  have [_ _ ->] := Hg _ x_in.
  have [-> _] := numerator_eval uniq_xs x_in x_in.
  have [<- den_neq0] := nth_dens k lt_kn.
  by rewrite eqxx -mulrA mulVf // mulr1.
move=> r i; rewrite /body /inc.
set yS := ys`_i * _.
rewrite (Poly_for_range _ _ (inc := fun j => ((nth [::] nums i)`_j * yS) *: 'X^j) _).
  move=> r' j /=; case: ifP => [_|/negbT]; first by rewrite Poly_update_add.
  rewrite negb_and !negbK => /orP [] /eqP Hz.
    by rewrite Hz mul0r scale0r addr0.
  by rewrite /yS Hz !(mul0r, mulr0) scale0r addr0.
rewrite add0n; congr (_ + _).
rewrite -(PolyE_le (sz_nums i)) scaler_sumr.
by apply: eq_bigr => j _; rewrite scalerA mulrC.
Qed.

End InterpolationTheory.

(** ** Division as Euclidean division, and the QAP checks *)

Lemma for_rangeM_check lo n (c : nat -> bool) (e : nat -> error) :
  for_rangeM lo n (fun _ i => if c i then Throw (e i) else Ok tt) tt =
  if has c (iota lo n)
  then Throw (e (nth 0 (iota lo n) (find c (iota lo n)))) else Ok tt.
Proof. by elim: n lo => [|n IH] lo //=; case: (c lo) => //=. Qed.

Section QapTheory.

Local Open Scope ring_scope.
Import GRing.Theory.

Variable F : fieldType.

Local Notation ops := (fieldFr F).
Local Notation addPolys := (addPolys ops).
Local Notation subPolys := (subPolys ops).
Local Notation mulPolys := (mulPolys ops).
Local Notation divPolys := (divPolys ops).
Local Notation evalPoly := (evalPoly ops).
Local Notation tPoly := (tPoly ops).
Local Notation combine := (combine ops).
Local Notation computeSolutionPoly := (computeSolutionPoly ops).
Local Notation computeDivisorPoly := (computeDivisorPoly ops).

Implicit Types (p q s : seq F) (x c : F).

Lemma size_Poly_lead q :
  (0 < size q)%N -> q`_(size q).-1 != 0 -> size (Poly q) = size q.
Proof.
move=> q_gt0 lc; rewrite (PolyK (c := 0)) //.
by rewrite -nth_last.
Qed.

(** [divPolys] computes the Euclidean quotient and remainder. *)
Lemma divPolys_edivp p q :
  (0 < size q)%N -> q`_(size q).-1 != 0 ->
  exists quot rem,
    [/\ divPolys p q = Ok (quot, rem),
        Poly quot = Poly p %/ Poly q,
        Poly rem = Poly p %% Poly q,
        size quot = ((size p).+1 - size q)%N
      & size rem = minn (size p) (size q).-1].
Proof.
move=> q_gt0 lc; have [quot [rem [Hd Heq sz_q sz_r]]] := divPolysP p q_gt0 lc.
have lt_r : (size (Poly rem) < size (Poly q))%N.
  rewrite (size_Poly_lead q_gt0 lc); apply: (leq_ltn_trans (size_Poly _)).
  by rewrite sz_r; nat_lia.
exists quot, rem; split=> //.
  by rewrite -Heq divp_addl_mul_small.
by rewrite -Heq modp_addl_mul_small.
Qed.

Lemma computeDivisorPolyP ht t :
  (0 < size t)%N -> t`_(size t).-1 != 0 ->
  exists h rem,
    [/\ divPolys ht t = Ok (h, rem),
        Poly h = Poly ht %/ Poly t,
        Poly rem = Poly ht %% Poly t
      & computeDivisorPoly ht t =
        if has (fun c => c != 0) rem
        then Throw (RemainderNotZero (find (fun c => c != 0) rem))
        else Ok h].
Proof.
move=> t_gt0 lc.
have [h [rem [Hd Hq Hr _ _]]] := divPolys_edivp ht t_gt0 lc.
exists h, rem; split=> //; rewrite /(computeDivisorPoly) Hd /=.
rewrite (@for_rangeM_check 0 (size rem) (fun i => rem`_i != 0)
           RemainderNotZero).
have -> : has (fun i => rem`_i != 0) (iota 0 (size rem)) =
          has (fun c => c != 0) rem.
  apply/hasP/hasP => [[i]|[c /(nthP 0) [i lt_i <-] Hc]].
    by rewrite mem_iota add0n /= => lt_i Hi; exists rem`_i => //; rewrite mem_nth.
  by exists i => //; rewrite mem_iota.
case: ifP => // Hhas; congr (Throw (RemainderNotZero _)).
have -> : find (fun i => rem`_i != 0) (iota 0 (size rem)) =
          find (fun c => c != 0) rem.
  rewrite -[in RHS](mkseq_nth 0 rem) /mkseq find_map.
  by apply: eq_find.
by rewrite nth_iota // -has_find.
Qed.

(** *** computeSolutionPoly *)

Lemma scaleRow_ok witness i row :
  (i < size witness)%N ->
  scaleRow ops witness i row = Ok (mulPolys [:: witness`_i] row).
Proof.
by move=> lt_i; case: row => [|a row] //; rewrite /scaleRow (get_nth 0).
Qed.

Lemma combine_ok witness rows :
  (size rows <= size witness)%N ->
  combine witness rows =
  Ok (for_range 0 (size rows)
        (fun acc i => addPolys acc (mulPolys [:: witness`_i] (nth [::] rows i)))
        [::]).
Proof.
move=> le_rw; apply: for_rangeM_ok => i acc lt_i.
by rewrite scaleRow_ok //; apply: leq_trans le_rw.
Qed.

Lemma Poly_combine witness rows :
  Poly (for_range 0 (size rows)
          (fun acc i => addPolys acc (mulPolys [:: witness`_i] (nth [::] rows i)))
          [::])
  = linear_combination witness rows.
Proof.
rewrite (Poly_for_range _ _
           (inc := fun i => witness`_i *: Poly (nth [::] rows i)) _).
  move=> r i; rewrite Poly_addPolys Poly_mulPolys /= cons_poly_def mul0r add0r.
  by rewrite mul_polyC.
by rewrite add0r.
Qed.

Lemma size_combine witness rows (m : nat) :
  (0 < size rows)%N -> all (fun row => size row == m) rows ->
  size (for_range 0 (size rows)
          (fun acc i => addPolys acc (mulPolys [:: witness`_i] (nth [::] rows i)))
          [::]) = m.
Proof.
move=> rows_gt0 /allP Hm.
set body := (X in for_range _ _ X).
have loop n : (n <= size rows)%N ->
    size (for_range 0 n body [::]) = if n is 0 then 0%N else m.
  elim: n => [|n IH] // lt_n; rewrite for_rangeSr /body size_addPolys.
  rewrite size_mulPolys IH ?(ltnW lt_n) // add0n add1n /=.
  rewrite (eqP (Hm _ (mem_nth _ lt_n))).
  by case: (n) => [|?]; rewrite ?max0n ?maxnn.
by rewrite loop //; case: (size rows) rows_gt0.
Qed.

Lemma computeSolutionPolyP witness qap (m : nat) :
  (0 < size witness)%N ->
  size (u qap) = size witness -> size (v qap) = size witness ->
  size (w qap) = size witness ->
  all (fun row => size row == m) (u qap) ->
  all (fun row => size row == m) (v qap) ->
  all (fun row => size row == m) (w qap) ->
  let bad := fun k : nat => (solution_poly witness qap).[k%:R] != 0 in
  exists au av ht,
    [/\ size au = m /\ size av = m,
        Poly au = linear_combination witness (u qap),
        Poly av = linear_combination witness (v qap),
        Poly ht = solution_poly witness qap
      & computeSolutionPoly witness qap =
        if has bad (iota 1 m)
        then Throw (SolutionNotZero (nth 0%N (iota 1 m) (find bad (iota 1 m))))
        else Ok (au, av, ht)].
Proof.
move=> w_gt0 sz_u sz_v sz_w all_u all_v all_w bad.
rewrite /(computeSolutionPoly) (combine_ok (eq_leq sz_u)).
rewrite (combine_ok (eq_leq sz_v)) (combine_ok (eq_leq sz_w)) /=.
set au := for_range _ _ _ _; set av := for_range _ _ _ _.
set aw := for_range _ _ _ _; set ht := subPolys _ _.
have Pht : Poly ht = solution_poly witness qap.
  by rewrite /ht Poly_subPolys Poly_mulPolys !Poly_combine.
have u_gt0 : (0 < size (u qap))%N by rewrite sz_u.
rewrite (get_nth [::]) //= (eqP (allP all_u _ (mem_nth _ u_gt0))).
rewrite (@for_rangeM_check 1 m
           (fun i => ~~ Fr_equals ops (evalPoly ht (Fr_new ops i)) (Fr_zero ops))
           SolutionNotZero).
have Ebad : (fun i => ~~ Fr_equals ops (evalPoly ht (Fr_new ops i)) (Fr_zero ops))
            =1 bad.
  by move=> k; rewrite /bad /= evalPolyE Pht.
rewrite (eq_has Ebad) (eq_find Ebad).
exists au, av, ht; split=> //; rewrite ?Poly_combine //.
  by rewrite /au /av !(@size_combine _ _ m) // ?sz_v.
by case: ifP.
Qed.

End QapTheory.

(** ** groth16.ts: folds and the verifier, for any implementation of the
    external interfaces *)

Section Groth16Generic.

Variables F G1 G2 : Type.
Variable ops : FrOps F.
Variable g1 : GroupOps F G1.
Variable g2 : GroupOps F G2.
Variable validatePairing : seq G1 -> seq G2 -> result bool.

Lemma foldPoints_ok G (g : GroupOps F G) (points : seq G) (scalars : seq F) :
  size points <= size scalars ->
  foldPoints g points scalars =
  reduce1 (G_add g)
    [seq G_mul g (nth (generator g) points i) (nth (Fr_zero ops) scalars i)
    | i <- iota 0 (size points)].
Proof.
move=> le_ps; rewrite /foldPoints.
rewrite (mapM_ok (g := fun i => G_mul g (nth (generator g) points i)
                                  (nth (Fr_zero ops) scalars i))) //.
move=> i; rewrite mem_iota add0n /= => lt_i.
by rewrite (get_nth (Fr_zero ops)) //; apply: leq_trans le_ps.
Qed.

Lemma foldCoeffs_ok G (g : GroupOps F G) (coeffs : seq F) (points : seq G) :
  size coeffs <= size points ->
  foldCoeffs ops g coeffs points =
  reduce1 (G_add g)
    [seq G_mul g (nth (generator g) points i) (nth (Fr_zero ops) coeffs i)
    | i <- iota 0 (size coeffs)].
Proof.
move=> le_cp; rewrite /foldCoeffs.
rewrite (mapM_ok (g := fun i => G_mul g (nth (generator g) points i)
                                  (nth (Fr_zero ops) coeffs i))) //.
move=> i; rewrite mem_iota add0n /= => lt_i.
by rewrite (get_nth (generator g)) //; apply: leq_trans le_cp.
Qed.

(** Folding an empty coefficient array is a [reduce] of an empty array. *)
Lemma foldCoeffs_nil G (g : GroupOps F G) (points : seq G) :
  foldCoeffs ops g [::] points = Throw TypeError.
Proof. by []. Qed.


Lemma verifyP (proof : ProofTriple G1 G2) (publicInputs : seq F)
    (vk : VerificationKey.t G1 G2) :
  verify ops g1 validatePairing proof publicInputs vk =
  if (size publicInputs).+1 != size (VerificationKey.cTauPublicG1 vk)
  then Throw (InvalidPublicInputs
                ((size (VerificationKey.cTauPublicG1 vk))%:Z - 1)%R
                (size publicInputs))
  else
    publicInputsSumG1 <-
      foldPoints g1 (VerificationKey.cTauPublicG1 vk)
        (Fr_one ops :: publicInputs) ;;
    validatePairing
      [:: G_neg g1 proof.1.1; VerificationKey.alphaG1 vk;
          publicInputsSumG1; proof.1.2]
      [:: proof.2; VerificationKey.betaG2 vk; VerificationKey.gammaG2 vk;
          VerificationKey.deltaG2 vk].
Proof. by case: proof => [[A C] B]. Qed.

End Groth16Generic.


(** * The properties of the specification *)

Section Claims.

Local Open Scope ring_scope.
Import GRing.Theory.

Variable F : fieldType.

Local Notation ops := (fieldFr F).

Lemma Poly_map_scale (c : F) (s : seq F) :
  Poly [seq Fr_mul ops x c | x <- s] = c *: Poly s.
Proof.
apply/polyP => i; rewrite coefZ !coef_Poly.
case: (ltnP i (size s)) => Hi; first by rewrite (nth_map 0) //= mulrC.
by rewrite !nth_default ?size_map // mulr0.
Qed.

(** C3. Interpolation round trip: for pairwise distinct points [xs] and
    values [ys] of the same length, [interpolate] returns an array of
    length [len(xs)] whose polynomial takes the value [ys[i]] at [xs[i]]
    for every index [i]. *)
Theorem interpolate_roundtrip (xs ys : seq F) :
  size xs = size ys -> uniq xs ->
  exists r,
    [/\ interpolate ops xs ys = Ok r, size r = size xs
      & forall i, (i < size xs)%N ->
          evalPoly ops r (nth (Fr_zero ops) xs i) = nth (Fr_zero ops) ys i].
Proof. by move=> sz_eq uniq_xs; apply: interpolateP. Qed.

(** C4. Division identity: for a non-empty divisor [q] whose leading stored
    coefficient is invertible, [divPolys(p, q)] returns a quotient and a
    remainder with [p = quotient * q + remainder], coefficient by
    coefficient up to trailing zeros. *)
Theorem divPolys_identity (p q : seq F) :
  q != [::] -> last (Fr_zero ops) q \is a GRing.unit ->
  exists quotient remainder,
    divPolys ops p q = Ok (quotient, remainder) /\
    forall i, nth (Fr_zero ops) p i =
              nth (Fr_zero ops)
                (addPolys ops (mulPolys ops quotient q) remainder) i.
Proof.
rewrite -size_eq0 -lt0n unitfE => q_gt0; rewrite -nth_last => lc.
have [quot [rem [Hd Heq _ _]]] := divPolysP p q_gt0 lc.
exists quot, rem; split=> // i.
by rewrite /= -[RHS]coef_Poly Poly_addPolys Poly_mulPolys Heq coef_Poly.
Qed.

(** C5. Vanishing polynomial: for [m >= 1], [tPoly(m)] has length [m + 1],
    its highest coefficient is one, it evaluates to zero at every integer
    [k] of [1..m] and to a nonzero value at every other field element. *)
Theorem tPoly_vanishing (m : nat) :
  (0 < m)%N ->
  [/\ size (tPoly ops m) = m.+1,
      nth (Fr_zero ops) (tPoly ops m) m = Fr_one ops,
      forall k, (1 <= k <= m)%N ->
        evalPoly ops (tPoly ops m) (Fr_new ops k) = Fr_zero ops
    & forall x : F, (forall k, (1 <= k <= m)%N -> x != Fr_new ops k) ->
        evalPoly ops (tPoly ops m) x != Fr_zero ops].
Proof.
move=> _; split; first exact: size_tPoly.
- exact: lead_tPoly.
- move=> k Hk; apply/eqP; rewrite tPoly_root; apply/hasP; exists k => //.
  by rewrite mem_iota add1n ltnS.
- move=> x Hx; rewrite tPoly_root -all_predC; apply/allP => k.
  by rewrite mem_iota add1n ltnS => /Hx.
Qed.

(** C6. Solution polynomials: for a QAP with at least the constant slot,
    whose basis polynomials have stored length [m], and a witness with one
    entry per variable, [computeSolutionPoly] throws exactly when
    [ht = au * av - aw] is nonzero at some point of [1..m]; otherwise it
    returns [au], [av] (of length [m]) and [ht], the linear combinations of
    the basis polynomials by the witness. *)
Theorem computeSolutionPoly_spec (witness : seq F) (qap : QAP F) (m : nat) :
  (0 < size witness)%N ->
  size (u qap) = size witness -> size (v qap) = size witness ->
  size (w qap) = size witness ->
  all (fun row => size row == m) (u qap) ->
  all (fun row => size row == m) (v qap) ->
  all (fun row => size row == m) (w qap) ->
  match computeSolutionPoly ops witness qap with
  | Throw _ =>
      exists2 k, (1 <= k <= m)%N
               & (solution_poly witness qap).[Fr_new ops k] != 0
  | Ok (au, av, ht) =>
      [/\ forall k, (1 <= k <= m)%N ->
            (solution_poly witness qap).[Fr_new ops k] = 0,
          size au = m /\ size av = m,
          Poly au = linear_combination witness (u qap),
          Poly av = linear_combination witness (v qap)
        & Poly ht = solution_poly witness qap]
  end.
Proof.
move=> w_gt0 sz_u sz_v sz_w all_u all_v all_w.
have [au [av [ht [Hsz Pau Pav Pht ->]]]] :=
  computeSolutionPolyP w_gt0 sz_u sz_v sz_w all_u all_v all_w.
case: ifP => [/hasP [k]|/negbT]; rewrite ?mem_iota ?add1n ?ltnS.
  by move=> Hk Hbad; exists k.
rewrite -all_predC => /allP Hall; split=> // k Hk; apply/eqP.
by have := Hall k; rewrite mem_iota add1n ltnS /= negbK; apply.
Qed.

(** C7. Quotient by the vanishing polynomial: for a non-empty monic [t],
    [computeDivisorPoly(ht, t)] throws exactly when some coefficient of the
    remainder of the division of [ht] by [t] is nonzero, and otherwise
    returns the quotient of that division. *)
Theorem computeDivisorPoly_spec (ht t : seq F) :
  t != [::] -> last (Fr_zero ops) t = Fr_one ops ->
  exists h remainder,
    [/\ divPolys ops ht t = Ok (h, remainder),
        Poly h = Poly ht %/ Poly t,
        Poly remainder = Poly ht %% Poly t
      & computeDivisorPoly ops ht t =
        if has (fun c => c != 0) remainder
        then Throw (RemainderNotZero (find (fun c => c != 0) remainder))
        else Ok h].
Proof.
rewrite -size_eq0 -lt0n => t_gt0 /= lc.
by apply: computeDivisorPolyP => //; rewrite nth_last lc oner_neq0.
Qed.

(** C9. Evaluation is additive: the value of [addPolys(p, q)] at [x] is the
    sum of the values of [p] and [q]; in particular the combined polynomial
    [beta * u_i + alpha * v_i + w_i] that [setup] evaluates once at [tau]
    has the value [beta * u_i(tau) + alpha * v_i(tau) + w_i(tau)]. *)
Theorem evalPoly_addPolys (p q : seq F) (x : F) :
  evalPoly ops (addPolys ops p q) x
  = Fr_add ops (evalPoly ops p x) (evalPoly ops q x)
  /\ forall (uPoly vPoly wPoly : seq F) (alpha beta tau : F),
       evalPoly ops
         (addPolys ops
            (addPolys ops [seq Fr_mul ops c beta | c <- uPoly]
                          [seq Fr_mul ops c alpha | c <- vPoly]) wPoly) tau
       = Fr_add ops
           (Fr_add ops (Fr_mul ops beta (evalPoly ops uPoly tau))
                       (Fr_mul ops alpha (evalPoly ops vPoly tau)))
           (evalPoly ops wPoly tau).
Proof.
split=> [|uPoly vPoly wPoly alpha beta tau].
  by rewrite !evalPolyE Poly_addPolys hornerD.
by rewrite !evalPolyE !Poly_addPolys !Poly_map_scale !hornerD !hornerZ.
Qed.

End Claims.

Section GenericClaims.

Variables F G1 G2 : Type.
Variable ops : FrOps F.
Variable g1 : GroupOps F G1.
Variable validatePairing : seq G1 -> seq G2 -> result bool.


(** C10. A dividend shorter than the divisor: [divPolys] returns the empty
    quotient and the dividend itself as remainder, without inverting
    anything. *)
Theorem divPolys_short (p q : seq F) :
  size p < size q -> divPolys ops p q = Ok ([::], p).
Proof. exact: divPolys_small. Qed.

End GenericClaims.

(** * Concrete inputs *)

Section Witnesses.

Local Open Scope ring_scope.
Import GRing.Theory Examples.

(** C1. Completeness fails on degenerate circuits: the single-constraint
    R1CS [x * x = x] with the satisfying witness [x = 1], and the
    two-constraint R1CS over [1, x] with no private variable, both make the
    flow R1CS, QAP, setup, prove, verify throw a TypeError (a [reduce] of an
    empty array in [prove]) instead of returning true. *)
Theorem pipeline_degenerate_throws :
  [/\ satisfies Bls.Fr A1 B1 C1 witness1,
      run 0 A1 B1 C1 witness1 false = Throw TypeError,
      satisfies Bls.Fr A2 B2 C2 witness1
    & run 1 A2 B2 C2 witness1 false = Throw TypeError].
Proof. by split; vm_compute. Qed.

(** C2. The single-constraint R1CS [x * x = x]: [fromR1csToQap] yields
    basis polynomials of length one, the witness [x = 1] passes
    [computeSolutionPoly] and [setup] succeeds, but [prove] throws a
    TypeError, with and without the self check. *)
Theorem single_constraint_prove_throws :
  let qap := mkQAP 0 [:: [:: 0%bigint]; [:: 1%bigint]]
               [:: [:: 0%bigint]; [:: 1%bigint]]
               [:: [:: 0%bigint]; [:: 1%bigint]] in
  [/\ fromR1csToQap Bls.Fr 0 A1 B1 C1 = Ok qap,
      throws (computeSolutionPoly Bls.Fr (Fr_one Bls.Fr :: witness1) qap)
      = false,
      throws (setup Bls.Fr Bls.G Bls.G rnd qap) = false
    & forall shouldCheckProof,
        (trustedSetup <- setup Bls.Fr Bls.G Bls.G rnd qap ;;
         prove Bls.Fr Bls.G Bls.G Bls.validatePairing 19%bigint 23%bigint
           trustedSetup qap witness1 shouldCheckProof) = Throw TypeError].
Proof. by split; [..|case]; vm_compute. Qed.


Lemma interpolate_roundtrip_witness :
  [/\ size xs12 = size ys35, uniq xs12
    & exists r,
      [/\ interpolate (fieldFr rat) xs12 ys35 = Ok r, size r = size xs12
        & forall i, (i < size xs12)%N ->
            evalPoly (fieldFr rat) r (nth 0 xs12 i) = nth 0 ys35 i]].
Proof.
split; [reflexivity | reflexivity |].
apply: (@interpolate_roundtrip rat xs12 ys35); reflexivity.
Defined.

Lemma divPolys_identity_witness :
  exists quotient remainder,
    divPolys (fieldFr rat) p14 q12 = Ok (quotient, remainder) /\
    forall i, nth 0 p14 i =
              nth 0 (addPolys (fieldFr rat)
                       (mulPolys (fieldFr rat) quotient q12) remainder) i.
Proof. apply: (@divPolys_identity rat p14 q12); reflexivity. Defined.

Lemma tPoly_vanishing_witness :
  [/\ size (tPoly (fieldFr rat) 3) = 4%N,
      nth 0 (tPoly (fieldFr rat) 3) 3 = 1,
      forall k, (1 <= k <= 3)%N ->
        evalPoly (fieldFr rat) (tPoly (fieldFr rat) 3) k%:R = 0
    & forall x : rat, (forall k, (1 <= k <= 3)%N -> x != k%:R) ->
        evalPoly (fieldFr rat) (tPoly (fieldFr rat) 3) x != 0].
Proof. apply: (@tPoly_vanishing rat 3); reflexivity. Defined.

Lemma computeSolutionPoly_spec_witness :
  match computeSolutionPoly (fieldFr rat) w11 qap1 with
  | Throw _ =>
      exists2 k, (1 <= k <= 1)%N & (solution_poly w11 qap1).[k%:R] != 0
  | Ok (au, av, ht) =>
      [/\ forall k, (1 <= k <= 1)%N -> (solution_poly w11 qap1).[k%:R] = 0,
          size au = 1%N /\ size av = 1%N,
          Poly au = linear_combination w11 (u qap1),
          Poly av = linear_combination w11 (v qap1)
        & Poly ht = solution_poly w11 qap1]
  end.
Proof. apply: (@computeSolutionPoly_spec rat w11 qap1 1); reflexivity. Defined.

Lemma computeDivisorPoly_spec_witness :
  exists h remainder,
    [/\ divPolys (fieldFr rat) x2m1 xm1 = Ok (h, remainder),
        Poly h = Poly x2m1 %/ Poly xm1,
        Poly remainder = Poly x2m1 %% Poly xm1
      & computeDivisorPoly (fieldFr rat) x2m1 xm1 =
        if has (fun c => c != 0) remainder
        then Throw (RemainderNotZero (find (fun c => c != 0) remainder))
        else Ok h].
Proof. apply: (@computeDivisorPoly_spec rat x2m1 xm1); reflexivity. Defined.

Lemma divPolys_short_witness :
  divPolys Bls.Fr [:: 1%bigint] [:: 1%bigint; 2%bigint]
  = Ok ([::], [:: 1%bigint]).
Proof.
apply: (@divPolys_short Z Bls.Fr [:: 1%bigint] [:: 1%bigint; 2%bigint]).
reflexivity.
Defined.

End Witnesses.

(** * Further properties of the code *)

(** ** poly.ts: the algebra of coefficient arrays *)

Section PolyLaws.

Local Open Scope ring_scope.
Import GRing.Theory.

Variable F : fieldType.

Local Notation ops := (fieldFr F).
Local Notation addPolys := (addPolys ops).
Local Notation subPolys := (subPolys ops).
Local Notation mulPolys := (mulPolys ops).
Local Notation divPolys := (divPolys ops).
Local Notation evalPoly := (evalPoly ops).
Local Notation zpoly := (zpoly ops).

Implicit Types (p q r s : seq F) (x c : F).

(** Two arrays of the same length with the same polynomial are equal. *)
Lemma Poly_inj_size s1 s2 :
  size s1 = size s2 -> Poly s1 = Poly s2 -> s1 = s2.
Proof.
move=> sz_eq P_eq; apply: (eq_from_nth (x0 := 0)) => // i _.
by rewrite -[LHS]coef_Poly -[RHS]coef_Poly P_eq.
Qed.

(** X1. [mulPolys] is the product of polynomials: the result has
    [len(p) + len(q) - 1] coefficients (none when both are empty) and its
    value at any point is the product of the values. *)
Theorem mulPolys_product p q x :
  size (mulPolys p q) = (size p + size q).-1 /\
  evalPoly (mulPolys p q) x = Fr_mul ops (evalPoly p x) (evalPoly q x).
Proof.
by split; rewrite ?size_mulPolys // !evalPolyE Poly_mulPolys hornerM.
Qed.

(** X2. [subPolys] is the difference of polynomials: the result has the
    length of the longer operand and its value at any point is the
    difference of the values. *)
Theorem subPolys_difference p q x :
  size (subPolys p q) = maxn (size p) (size q) /\
  evalPoly (subPolys p q) x = Fr_sub ops (evalPoly p x) (evalPoly q x).
Proof.
by split; rewrite ?size_subPolys // !evalPolyE Poly_subPolys hornerD hornerN.
Qed.

(** X3. The laws of the specification hold on the stored arrays, not only
    up to trailing zeros: [addPolys] is commutative and associative, and
    [mulPolys] distributes over [addPolys]. *)
Theorem addPolys_mulPolys_laws p q r :
  [/\ addPolys p q = addPolys q p,
      addPolys (addPolys p q) r = addPolys p (addPolys q r)
    & mulPolys p (addPolys q r) = addPolys (mulPolys p q) (mulPolys p r)].
Proof.
split; apply: Poly_inj_size;
  rewrite ?size_addPolys ?size_mulPolys ?size_addPolys
          ?Poly_addPolys ?Poly_mulPolys ?Poly_addPolys.
- by rewrite maxnC.
- by rewrite addrC.
- by rewrite maxnA.
- by rewrite addrA.
- by nat_lia.
- by rewrite mulrDr.
Qed.

(** X4. The outcomes of [divPolys]: an empty divisor raises a TypeError; a
    dividend shorter than the divisor is returned as the remainder; a
    divisor whose leading coefficient is zero makes the inverse fail;
    otherwise the loop ends with a quotient of [len(p) - len(q) + 1] and a
    remainder of [len(q) - 1] coefficients with [p = quotient * q +
    remainder] at every point.  In particular the loop always ends. *)
Theorem divPolys_outcome p q :
  if q is [::] then divPolys p q = Throw TypeError
  else if (size p < size q)%N then divPolys p q = Ok ([::], p)
  else if last 0 q == 0 then divPolys p q = Throw InverseOfZero
  else exists quotient remainder,
    [/\ divPolys p q = Ok (quotient, remainder),
        size quotient = (size p - size q).+1,
        size remainder = (size q).-1
      & forall x, evalPoly p x =
          evalPoly quotient x * evalPoly q x + evalPoly remainder x].
Proof.
case: q => [|a q']; first by case: p.
set q := a :: q'.
case: ltnP => [lt_pq|le_qp]; first exact: divPolys_small.
have q_gt0 : (0 < size q)%N by [].
have p_gt0 : (0 < size p)%N by exact: leq_trans le_qp.
case: eqP => [lc0|/eqP lc].
  rewrite /divPolys /= le_qp.
  have -> : at_last p = Ok p`_(size p).-1 by rewrite at_lastE.
  by move: lc0; rewrite /q /= => ->; rewrite inv_zero.
have lc' : q`_(size q).-1 != 0 by rewrite nth_last.
have [quot [rem [Hd Heq sz_q sz_r]]] := divPolysP p q_gt0 lc'.
exists quot, rem; split=> //.
- by rewrite sz_q subSn.
- by rewrite sz_r; move: le_qp; nat_lia.
- by move=> x; rewrite !evalPolyE -Heq hornerD hornerM.
Qed.

(** X5. [zpoly(xs)] is the monic polynomial with the roots [xs]: it has
    [len(xs) + 1] coefficients, the highest is one, and its value at [x] is
    the product of the [x - xs_i]; so it vanishes exactly on [xs]. *)
Theorem zpoly_roots xs x :
  [/\ size (zpoly xs) = (size xs).+1,
      nth 0 (zpoly xs) (size xs) = 1,
      evalPoly (zpoly xs) x = \prod_(y <- xs) (x - y)
    & (evalPoly (zpoly xs) x == 0) = (x \in xs)].
Proof.
split; first exact: size_zpoly.
- rewrite -coef_Poly Poly_zpoly.
  have := monic_prod_XsubC xs xpredT id.
  by rewrite monicE lead_coefE size_prod_XsubC /= => /eqP.
- rewrite evalPolyE Poly_zpoly horner_prod.
  by apply: eq_bigr => y _; rewrite hornerXsubC.
- by rewrite evalPolyE Poly_zpoly -[LHS]/(root _ x) root_prod_XsubC.
Qed.

Lemma mapM_inv_zero s :
  has (fun d => d == 0) s -> mapM (inv ops) s = Throw InverseOfZero.
Proof.
elim: s => [|d s IH] //=; case: (eqVneq d 0) => [->|d_neq0] /=.
  by rewrite inv_zero.
by move=> /IH ->; rewrite inv_unit.
Qed.

Lemma numerator_any xs x :
  x \in xs ->
  exists num,
    [/\ divPolys (zpoly xs) [:: - x; 1] = Ok (num, [:: 0]),
        size num = size xs
      & Poly num * ('X - x%:P) = \prod_(y <- xs) ('X - y%:P)].
Proof.
move=> x_in.
have [//||num [rem [Hdiv Heq sz_num sz_rem]]] :=
  @divPolysP F (zpoly xs) [:: - x; 1]; first by rewrite /= oner_neq0.
move: sz_num sz_rem Heq; rewrite size_zpoly Poly_zpoly Poly_XsubC.
rewrite [size [:: _; _]]/= subSS subn1 /= => sz_num.
case: rem Hdiv => [|c [|? ?]] //= Hdiv _ Heq.
have c0 : c = 0.
  have := congr1 (fun p : {poly F} => p.[x]) Heq.
  rewrite hornerD hornerM hornerXsubC subrr mulr0 add0r cons_poly_def mul0r.
  rewrite add0r hornerC => ->; apply/eqP.
  by rewrite -[_ == 0]/(root _ x) root_prod_XsubC.
exists num; split; rewrite -?c0 //.
by move: Heq; rewrite c0 cons_poly_def mul0r add0r addr0.
Qed.

(** X6. The outcomes of [interpolate]: arrays of different lengths raise
    the length-mismatch error; a point that occurs twice in [xs] makes the
    inverse of a zero denominator fail; in every other case a polynomial is
    returned. *)
Theorem interpolate_outcome xs ys :
  if size xs != size ys then interpolate ops xs ys = Throw LengthMismatch
  else if ~~ uniq xs then interpolate ops xs ys = Throw InverseOfZero
  else exists r, interpolate ops xs ys = Ok r.
Proof.
case: eqP => [sz_eq|/eqP ne_sz] /=; last by rewrite /interpolate ne_sz.
case: (boolP (uniq xs)) => [uniq_xs|/(uniqPn 0) [i [j [lt_ij lt_j Eij]]]] /=.
  by have [r [Hr _ _]] := interpolateP uniq_xs sz_eq; exists r.
rewrite /interpolate sz_eq eqxx /= -sz_eq.
pose g x : seq F :=
  if divPolys (zpoly xs) [:: - x; 1] is Ok qr then qr.1 else [::].
have Hg x : x \in xs ->
    divPolys (zpoly xs) [:: - x; 1] = Ok (g x, [:: 0]) /\
    Poly (g x) * ('X - x%:P) = \prod_(y <- xs) ('X - y%:P).
  move=> x_in; have [num [Hd sz Pn]] := numerator_any x_in.
  by rewrite /g Hd.
rewrite (mapM_ok (g := g)) /=; first by move=> x /Hg [-> _].
rewrite mapM_inv_zero //; apply/hasP.
set dens := mkseq _ _; exists dens`_j; first by rewrite mem_nth // size_mkseq.
rewrite /dens nth_mkseq // (nth_map 0) // evalPolyE.
set x := xs`_j.
have x_in : x \in xs by rewrite mem_nth.
have [_] := Hg x x_in.
rewrite -{1}(cat_take_drop j xs) (drop_nth 0) // -/x big_cat big_cons /=.
rewrite mulrCA [X in _ = X]mulrC => /mulIf.
rewrite polyXsubC_eq0 => /(_ isT) ->.
rewrite -[_ == 0]/(root _ x) rootM root_prod_XsubC.
suff -> : x \in take j xs by [].
rewrite /x -Eij -(nth_take (n0 := j)) // mem_nth // size_take lt_j.
exact: lt_ij.
Qed.

(** X7. [evalPoly] sums [coeff * x^i] with an explicit power for every
    term; the value obeys Horner's rule: the empty array evaluates to zero
    and [c :: p] to [c + x * p(x)]. *)
Theorem evalPoly_horner c p x :
  evalPoly [::] x = 0 /\ evalPoly (c :: p) x = c + x * evalPoly p x.
Proof.
split; first by rewrite evalPolyE /= horner0.
by rewrite !evalPolyE /= horner_cons addrC mulrC.
Qed.

(** X8. Division undoes multiplication: for a divisor [d] whose last
    coefficient is not zero, [divPolys(mulPolys(q, d), d)] returns the
    array [q] itself as the quotient and a remainder of [len(d) - 1]
    zeros. *)
Theorem divPolys_mulPolys q d :
  last 0 d != 0 ->
  divPolys (mulPolys q d) d = Ok (q, nseq (size d).-1 0).
Proof.
move=> lc.
have d_gt0 : (0 < size d)%N by case: d lc => //=; rewrite eqxx.
have lc' : d`_(size d).-1 != 0 by rewrite nth_last.
have Pd : Poly d != 0.
  by rewrite -size_poly_gt0 (size_Poly_lead d_gt0 lc').
have [quot [rem [-> Pq Pr sz_q sz_r]]] :=
  divPolys_edivp (mulPolys q d) d_gt0 lc'.
move: Pq Pr sz_q sz_r; rewrite Poly_mulPolys mulpK // modp_mull size_mulPolys.
move=> Pq Pr sz_q sz_r; congr (Ok (_, _)).
  apply: Poly_inj_size => //.
  by rewrite sz_q prednK ?addnK // addn_gt0 d_gt0 orbT.
apply: Poly_inj_size.
  rewrite size_nseq sz_r; apply/minn_idPr.
  by rewrite -!subn1 leq_sub2r // leq_addl.
rewrite Pr; apply/polyP => i; rewrite coef0 coef_Poly nth_nseq.
by case: ifP.
Qed.

(** X9. Interpolation undoes evaluation: for pairwise distinct points
    [xs] and an array [p] of [len(xs)] coefficients, interpolating the
    values of [p] at [xs] returns the array [p] itself. *)
Theorem interpolate_evalPoly p xs :
  uniq xs -> size p = size xs ->
  interpolate ops xs [seq evalPoly p x | x <- xs] = Ok p.
Proof.
move=> uniq_xs sz_p.
have sz_ys : size xs = size [seq evalPoly p x | x <- xs] by rewrite size_map.
have [r [-> sz_r ev_r]] := interpolateP uniq_xs sz_ys.
congr Ok; apply: Poly_inj_size; first by rewrite sz_r.
apply/eqP; rewrite -subr_eq0; apply/negPn/negP => diff_neq0.
have all_roots : all (root (Poly r - Poly p)) xs.
  apply/(all_nthP 0) => i lt_i.
  rewrite rootE hornerD hornerN -!evalPolyE ev_r //.
  by rewrite (nth_map 0) // subrr.
have := max_poly_roots diff_neq0 all_roots uniq_xs.
rewrite ltnNge => /negP; apply.
apply: (leq_trans (size_polyD _ _)); rewrite size_polyN geq_max.
by rewrite -{1}sz_r -sz_p !size_Poly.
Qed.

End PolyLaws.

(** ** qap.ts: from the R1CS to the QAP *)

Section R1csTheory.

Local Open Scope ring_scope.
Import GRing.Theory.

Variable F : fieldType.

Local Notation ops := (fieldFr F).
Local Notation evalPoly := (evalPoly ops).
Local Notation interpolate := (interpolate ops).
Local Notation interpolate_row := (interpolate_row ops).
Local Notation fromR1csToQap := (fromR1csToQap ops).

Implicit Types (A B C M : seq (seq F)) (m n : nat).

(** The transposed matrix, as [transpose] builds it. *)
Lemma transpose_ok (T : Type) (d : T) (M : seq (seq T)) m n :
  (0 < m)%N -> is_matrix m n M ->
  transpose M =
  Ok [seq [seq Some (nth d (nth [::] M j) i) | j <- iota 0 m]
     | i <- iota 0 n].
Proof.
move=> m_gt0 /andP [/eqP sz_M /(all_nthP [::]) all_M]; rewrite /transpose.
have M_gt0 : (0 < size M)%N by rewrite sz_M.
rewrite (get_nth [::]) //= sz_M (eqP (all_M _ M_gt0)).
congr Ok; rewrite /mkseq; apply/eq_in_map => i.
rewrite mem_iota add0n /= => lt_i.
apply/eq_in_map => j; rewrite mem_iota add0n /= => lt_j.
by rewrite (nth_map d) // (eqP (all_M _ _)) // sz_M.
Qed.

Lemma interpolate_column (col : seq F) m :
  distinct_points F m -> size col = m ->
  let xs := mkseq (fun i => Fr_new ops (i + 1)) m in
  exists r,
    [/\ interpolate_row xs [seq Some y | y <- col] = Ok r, size r = m
      & forall k, (k < m)%N -> evalPoly r (k.+1)%:R = col`_k].
Proof.
move=> uniq_xs sz_col xs.
have sz_xs : size xs = size col by rewrite size_mkseq.
have [r [Hr sz_r ev_r]] := interpolateP uniq_xs sz_xs.
exists r; rewrite /interpolate_row -map_comp map_id_in // Hr /=.
rewrite all_map (@eq_all _ _ predT) ?all_predT //.
split=> //; first by rewrite sz_r size_mkseq.
move=> k lt_k; rewrite -ev_r ?size_mkseq // nth_mkseq //=.
by rewrite addn1.
Qed.

Lemma mapM_map (T1 T2 T3 : Type) (f : T2 -> result T3) (h : T1 -> T2)
    (s : seq T1) :
  mapM f [seq h x | x <- s] = mapM (fun x => f (h x)) s.
Proof. by elim: s => [|x s IH] //=; rewrite IH. Qed.

(** The rows of a transposed matrix, interpolated one by one. *)
Lemma columns_ok M m n :
  distinct_points F m ->
  let xs := mkseq (fun i => Fr_new ops (i + 1)) m in
  exists polys,
    [/\ mapM (interpolate_row xs)
          [seq [seq Some (nth 0 (nth [::] M j) i) | j <- iota 0 m]
          | i <- iota 0 n] = Ok polys,
        size polys = n,
        all (fun row => size row == m) polys
      & forall i k, (i < n)%N -> (k < m)%N ->
          evalPoly (nth [::] polys i) (k.+1)%:R = nth 0 (nth [::] M k) i].
Proof.
move=> uniq_xs xs.
pose col i := [seq nth 0 (nth [::] M j) i | j <- iota 0 m].
pose g i : seq F :=
  if interpolate_row xs [seq Some y | y <- col i] is Ok r then r else [::].
have Hg i : [/\ interpolate_row xs [seq Some y | y <- col i] = Ok (g i),
               size (g i) = m
             & forall k, (k < m)%N ->
                 evalPoly (g i) (k.+1)%:R = nth 0 (nth [::] M k) i].
  have [|r [Hr sz_r ev_r]] := @interpolate_column (col i) m uniq_xs.
    by rewrite size_map size_iota.
  rewrite /g Hr; split=> // k lt_k.
  by rewrite ev_r // /col (nth_map 0%N) ?size_iota // nth_iota.
exists [seq g i | i <- iota 0 n]; split.
- rewrite mapM_map; apply: mapM_ok => i _.
  by have [<- _ _] := Hg i; rewrite /col -map_comp.
- by rewrite size_map size_iota.
- by apply/allP => r /mapP [i _ ->]; have [_ -> _] := Hg i.
- move=> i k lt_i lt_k; rewrite (nth_map 0%N) ?size_iota // nth_iota //.
  by have [_ _ ->] := Hg i.
Qed.

Lemma fromR1csToQapP lpub A B C m n :
  (0 < m)%N -> (0 < n)%N -> distinct_points F m ->
  is_matrix m n A -> is_matrix m n B -> is_matrix m n C ->
  exists us vs ws,
    [/\ fromR1csToQap lpub A B C = Ok (mkQAP lpub us vs ws),
        [/\ size us = n, size vs = n & size ws = n],
        [/\ all (fun row => size row == m) us,
            all (fun row => size row == m) vs
          & all (fun row => size row == m) ws]
      & forall i k, (i < n)%N -> (k < m)%N ->
          [/\ evalPoly (nth [::] us i) (k.+1)%:R = nth 0 (nth [::] A k) i,
              evalPoly (nth [::] vs i) (k.+1)%:R = nth 0 (nth [::] B k) i
            & evalPoly (nth [::] ws i) (k.+1)%:R = nth 0 (nth [::] C k) i]].
Proof.
move=> m_gt0 n_gt0 uniq_xs mxA mxB mxC.
rewrite /fromR1csToQap (transpose_ok 0 m_gt0 mxA) (transpose_ok 0 m_gt0 mxB).
rewrite (transpose_ok 0 m_gt0 mxC) /=.
rewrite (get_nth [::]) ?size_map ?size_iota //=.
rewrite (nth_map 0%N) ?size_iota // size_map size_iota.
have [us [-> sz_u all_u ev_u]] := @columns_ok A m n uniq_xs.
have [vs [-> sz_v all_v ev_v]] := @columns_ok B m n uniq_xs.
have [ws [-> sz_w all_w ev_w]] := @columns_ok C m n uniq_xs.
exists us, vs, ws; split=> // i k lt_i lt_k.
by rewrite ev_u // ev_v // ev_w.
Qed.

(** *** The solution check is the R1CS *)

Lemma dotE (row s : seq F) n :
  size row = n -> size s = n ->
  dot ops row s = \sum_(0 <= i < n) row`_i * s`_i.
Proof.
move=> sz_row sz_s; rewrite /dot.
have loop (z : seq (F * F)) acc :
    foldl (fun a ab => Fr_add ops a (Fr_mul ops ab.1 ab.2)) acc z
    = acc + \sum_(ab <- z) ab.1 * ab.2.
  elim: z acc => [|ab z IH] acc /=; first by rewrite big_nil addr0.
  by rewrite IH big_cons addrA.
rewrite loop add0r (big_nth (0, 0)) size_zip sz_row sz_s minnn.
rewrite big_nat [RHS]big_nat; apply: eq_bigr => i /andP [_ lt_i].
by rewrite nth_zip ?sz_row.
Qed.

Lemma linear_combination_eval (s : seq F) (rows : seq (seq F)) x :
  (linear_combination s rows).[x]
  = \sum_(0 <= i < size rows) evalPoly (nth [::] rows i) x * s`_i.
Proof.
rewrite /linear_combination horner_sum; apply: eq_bigr => i _.
by rewrite hornerZ evalPolyE mulrC.
Qed.

Lemma solution_check_r1cs lpub A B C m n (witness : seq F) :
  (0 < m)%N -> (0 < n)%N -> distinct_points F m ->
  is_matrix m n A -> is_matrix m n B -> is_matrix m n C ->
  (size witness).+1 = n ->
  exists qap,
    [/\ fromR1csToQap lpub A B C = Ok qap,
        [/\ l qap = lpub, size (u qap) = n, size (v qap) = n,
            size (w qap) = n & all (fun row => size row == m)
                                 (u qap ++ v qap ++ w qap)],
        forall k, (k < m)%N ->
          (solution_poly (1 :: witness) qap).[(k.+1)%:R]
          = dot ops (nth [::] A k) (1 :: witness)
            * dot ops (nth [::] B k) (1 :: witness)
            - dot ops (nth [::] C k) (1 :: witness)
      & throws (computeSolutionPoly ops (1 :: witness) qap)
        = ~~ satisfies ops A B C witness].
Proof.
move=> m_gt0 n_gt0 uniq_xs mxA mxB mxC sz_w.
have [us [vs [ws [Hq [sz_u sz_v sz_ws] [all_u all_v all_w] ev]]]] :=
  fromR1csToQapP lpub m_gt0 n_gt0 uniq_xs mxA mxB mxC.
set s := 1 :: witness; set qap := mkQAP lpub us vs ws.
have sz_s : size s = n by [].
have row_sz M k : is_matrix m n M -> (k < m)%N -> size (nth [::] M k) = n.
  move=> /andP [/eqP sz_M /allP all_M] lt_k.
  by rewrite (eqP (all_M _ (mem_nth _ _))) // sz_M.
have sol k : (k < m)%N ->
    (solution_poly s qap).[(k.+1)%:R]
    = dot ops (nth [::] A k) s * dot ops (nth [::] B k) s
      - dot ops (nth [::] C k) s.
  move=> lt_k; rewrite /solution_poly hornerD hornerN hornerM.
  rewrite !linear_combination_eval /= sz_u sz_v sz_ws.
  rewrite !(@dotE _ s n) ?row_sz //.
  congr (_ * _ - _); rewrite big_nat [RHS]big_nat;
    apply: eq_bigr => i /andP [_ lt_i];
    by have [Eu Ev Ew] := ev i k lt_i lt_k; rewrite ?Eu ?Ev ?Ew.
exists qap; split=> //; first by split=> //; rewrite !all_cat all_u all_v.
have s_gt0 : (0 < size s)%N by [].
have sz_u' : size (u qap) = size s by rewrite sz_s.
have sz_v' : size (v qap) = size s by rewrite sz_s.
have sz_w' : size (w qap) = size s by rewrite sz_s.
have [au [av [ht [_ _ _ _ ->]]]] :=
  computeSolutionPolyP s_gt0 sz_u' sz_v' sz_w' all_u all_v all_w.
rewrite /satisfies -/s; move: mxA => /andP [/eqP -> _].
rewrite -has_predC (iotaDl 1 0 m) has_map.
have -> : has (preim (addn 1)
               (fun k : nat => (solution_poly s qap).[k%:R] != 0)) (iota 0 m)
        = has (predC (fun k =>
                 Fr_equals ops
                   (Fr_mul ops (dot ops (nth [::] A k) s)
                               (dot ops (nth [::] B k) s))
                   (dot ops (nth [::] C k) s))) (iota 0 m).
  apply: eq_in_has => k; rewrite mem_iota add0n /= => lt_k.
  by rewrite add1n sol // subr_eq0.
by case: ifP.
Qed.

(** *** The quotient by the vanishing polynomial *)

Lemma Poly_eq0 (s : seq F) : (Poly s == 0) = all (fun c => c == 0) s.
Proof.
apply/eqP/allP => [P0 c /(nthP 0) [i _ <-]|all0].
  by rewrite -coef_Poly P0 coef0.
apply/polyP => i; rewrite coef_Poly coef0.
case: (ltnP i (size s)) => [lt_i|/(nth_default 0) //].
by apply/eqP/all0; rewrite mem_nth.
Qed.

Lemma points_iota m :
  mkseq (fun i => Fr_new ops (i + 1)) m = [seq k%:R | k <- iota 1 m].
Proof.
rewrite /mkseq (iotaDl 1 0 m) -map_comp; apply/eq_in_map => i _ /=.
by rewrite addnC.
Qed.

Lemma tPoly_dvdp (p : {poly F}) m :
  distinct_points F m ->
  (Poly (tPoly ops m) %| p) = all (fun k => p.[k%:R] == 0) (iota 1 m).
Proof.
rewrite /distinct_points points_iota => uniq_pts.
rewrite Poly_tPoly -(big_map (fun k : nat => k%:R) xpredT
                       (fun z => 'X - z%:P)).
apply/idP/allP => [dvd k k_in|all0].
  apply: (root_dvdp dvd); rewrite root_prod_XsubC.
  by apply/mapP; exists k.
apply: uniq_roots_dvdp; last by rewrite uniq_rootsE.
by apply/allP => z /mapP [k k_in ->]; apply: all0.
Qed.

Lemma computeDivisorPoly_tPoly (ht : seq F) m :
  distinct_points F m ->
  exists h,
    [/\ size h = ((size ht).+1 - m.+1)%N,
        Poly h = Poly ht %/ Poly (tPoly ops m)
      & computeDivisorPoly ops ht (tPoly ops m) =
        if all (fun k => evalPoly ht k%:R == 0) (iota 1 m) then Ok h
        else Throw (RemainderNotZero
               (find (fun c => c != 0)
                  (if divPolys ops ht (tPoly ops m) is Ok qr then qr.2
                   else [::])))].
Proof.
move=> uniq_pts.
have t_gt0 : (0 < size (tPoly ops m))%N by rewrite size_tPoly.
have lc : (tPoly ops m)`_(size (tPoly ops m)).-1 != 0.
  by rewrite size_tPoly /= lead_tPoly oner_neq0.
have [h [rem [Hd Ph Prem sz_h _]]] := divPolys_edivp ht t_gt0 lc.
have [h' [rem' []]] := computeDivisorPolyP ht t_gt0 lc.
rewrite Hd => -[<- <-] _ _ ->.
exists h; split=> //; first by rewrite sz_h size_tPoly.
rewrite has_predC -Poly_eq0 Prem.
rewrite -(@eq_all _ (fun k => (Poly ht).[k%:R] == 0));
  first by move=> k; rewrite evalPolyE.
rewrite -tPoly_dvdp //; case: (boolP (_ %| _)) => [/modp_eq0P ->|ndvd].
  by rewrite eqxx.
by rewrite ifT //; apply: contra ndvd => /eqP/modp_eq0P.
Qed.

(** The arrays returned by [computeSolutionPoly] when the check passes. *)
Lemma computeSolutionPoly_ok (witness : seq F) (qap : QAP F) m :
  (0 < size witness)%N ->
  size (u qap) = size witness -> size (v qap) = size witness ->
  size (w qap) = size witness ->
  all (fun row => size row == m) (u qap) ->
  all (fun row => size row == m) (v qap) ->
  all (fun row => size row == m) (w qap) ->
  all (fun k => (solution_poly witness qap).[k%:R] == 0) (iota 1 m) ->
  exists au av ht,
    [/\ computeSolutionPoly ops witness qap = Ok (au, av, ht),
        [/\ size au = m, size av = m & size ht = maxn (m + m).-1 m],
        Poly au = linear_combination witness (u qap),
        Poly av = linear_combination witness (v qap)
      & Poly ht = solution_poly witness qap].
Proof.
move=> w_gt0 sz_u sz_v sz_w all_u all_v all_w vanish.
rewrite /computeSolutionPoly (combine_ok (eq_leq sz_u)).
rewrite (combine_ok (eq_leq sz_v)) (combine_ok (eq_leq sz_w)) /=.
set au := for_range _ _ _ _; set av := for_range _ _ _ _.
set aw := for_range _ _ _ _; set ht := subPolys _ _ _.
have Pht : Poly ht = solution_poly witness qap.
  by rewrite /ht Poly_subPolys Poly_mulPolys !Poly_combine.
have u_gt0 : (0 < size (u qap))%N by rewrite sz_u.
have sz_au : size au = m by rewrite /au (@size_combine _ _ _ m).
have sz_av : size av = m by rewrite /av (@size_combine _ _ _ m) ?sz_v.
have sz_aw : size aw = m by rewrite /aw (@size_combine _ _ _ m) ?sz_w.
rewrite (get_nth [::]) //= (eqP (allP all_u _ (mem_nth _ u_gt0))).
rewrite (@for_rangeM_check 1 m
           (fun i => ~~ Fr_equals ops (evalPoly ht (Fr_new ops i)) (Fr_zero ops))
           SolutionNotZero).
rewrite ifF.
  apply/negbTE; rewrite -all_predC; apply/allP => k k_in /=.
  by rewrite negbK evalPolyE Pht (allP vanish).
exists au, av, ht; split=> //; rewrite ?Poly_combine //.
by rewrite /ht size_subPolys size_mulPolys sz_au sz_av sz_aw.
Qed.

Lemma wf_qapP (T : Type) n m (qap : QAP T) :
  wf_qap n m qap ->
  [/\ size (u qap) = n, size (v qap) = n & size (w qap) = n]
  /\ [/\ all (fun row => size row == m) (u qap),
          all (fun row => size row == m) (v qap)
        & all (fun row => size row == m) (w qap)].
Proof. by case/and5P => /eqP ? /eqP ? /eqP ? ? /andP [? ?]. Qed.

(** [computeSolutionPoly] throws exactly when the solution polynomial does
    not vanish on [1, ..., m]. *)
Lemma solution_check (witness : seq F) (qap : QAP F) n m :
  wf_qap n m qap -> size witness = n -> (0 < n)%N ->
  throws (computeSolutionPoly ops witness qap)
  = ~~ all (fun k => (solution_poly witness qap).[k%:R] == 0) (iota 1 m).
Proof.
move=> /wf_qapP [[sz_u sz_v sz_w] [all_u all_v all_w]] sz_wit n_gt0.
have w_gt0 : (0 < size witness)%N by rewrite sz_wit.
have sz_u' : size (u qap) = size witness by rewrite sz_wit.
have sz_v' : size (v qap) = size witness by rewrite sz_wit.
have sz_w' : size (w qap) = size witness by rewrite sz_wit.
have [au [av [ht [_ _ _ _ ->]]]] :=
  computeSolutionPolyP w_gt0 sz_u' sz_v' sz_w' all_u all_v all_w.
by rewrite -has_predC; case: ifP.
Qed.

(** The index in the error is the first point where the solution
    polynomial does not vanish. *)
Lemma solution_check_fails (witness : seq F) (qap : QAP F) n m :
  wf_qap n m qap -> size witness = n -> (0 < n)%N ->
  throws (computeSolutionPoly ops witness qap) ->
  exists2 k, (k < m)%N
    & computeSolutionPoly ops witness qap = Throw (SolutionNotZero k.+1).
Proof.
move=> /wf_qapP [[sz_u sz_v sz_w] [all_u all_v all_w]] sz_wit n_gt0.
have w_gt0 : (0 < size witness)%N by rewrite sz_wit.
have sz_u' : size (u qap) = size witness by rewrite sz_wit.
have sz_v' : size (v qap) = size witness by rewrite sz_wit.
have sz_w' : size (w qap) = size witness by rewrite sz_wit.
have [au [av [ht [_ _ _ _ ->]]]] :=
  computeSolutionPolyP w_gt0 sz_u' sz_v' sz_w' all_u all_v all_w.
set bad := fun k : nat => _; case: ifP => // has_bad _.
have lt_k : (find bad (iota 1 m) < m)%N.
  by move: has_bad; rewrite has_find size_iota.
by exists (find bad (iota 1 m)); rewrite ?nth_iota // add1n.
Qed.

(** X10. [transpose] on a matrix with [m] rows of [n] entries: without
    rows, [matrix[0].length] raises a TypeError; otherwise the result has
    [n] rows of [m] entries and its entry [(i, j)] is the entry [(j, i)]
    of the argument. *)
Theorem transpose_matrix (T : Type) (d : T) (M : seq (seq T)) m n :
  is_matrix m n M ->
  if m == 0%N then transpose M = Throw TypeError
  else exists R,
    [/\ transpose M = Ok R, is_matrix n m R
      & forall i j, (i < n)%N -> (j < m)%N ->
          nth None (nth [::] R i) j = Some (nth d (nth [::] M j) i)].
Proof.
move=> mxM; case: (posnP m) => [m0|m_gt0].
  have -> : M = [::] by apply: size0nil; move: mxM => /andP [/eqP -> _].
  by [].
rewrite (transpose_ok d m_gt0 mxM); eexists; split; first by [].
  rewrite /is_matrix size_map size_iota eqxx /=.
  by rewrite all_map; apply/allP => i _ /=; rewrite size_map size_iota.
move=> i j lt_i lt_j.
rewrite (nth_map 0%N) ?size_iota // (nth_map 0%N) ?size_iota //.
by rewrite !nth_iota.
Qed.

(** X11. The vanishing polynomial of [qap.ts] and the root polynomial of
    [interpolate] agree: [tPoly(m)] is the same array as [zpoly] of the
    points [1, ..., m] that [fromR1csToQap] interpolates at. *)
Theorem tPoly_zpoly m :
  tPoly ops m = zpoly ops (mkseq (fun i => Fr_new ops (i + 1)) m).
Proof.
apply: Poly_inj_size; first by rewrite size_tPoly size_zpoly size_mkseq.
by rewrite Poly_tPoly Poly_zpoly points_iota big_map.
Qed.

(** X12. [fromR1csToQap] on three matrices with [m] rows and [n] columns
    (the points [1, ..., m] being distinct in the field): without rows or
    without columns it raises a TypeError; otherwise it returns [n] basis
    polynomials of [m] coefficients for each matrix, and the [i]-th basis
    polynomial takes at the point [k + 1] the entry of row [k] and column
    [i]. *)
Theorem fromR1csToQap_interpolates lpub A B C m n :
  distinct_points F m ->
  is_matrix m n A -> is_matrix m n B -> is_matrix m n C ->
  if (m == 0%N) || (n == 0%N)
  then fromR1csToQap lpub A B C = Throw TypeError
  else exists qap,
    [/\ fromR1csToQap lpub A B C = Ok qap, l qap = lpub, wf_qap n m qap
      & forall i k, (i < n)%N -> (k < m)%N ->
          [/\ evalPoly (nth [::] (u qap) i) (k.+1)%:R = nth 0 (nth [::] A k) i,
              evalPoly (nth [::] (v qap) i) (k.+1)%:R = nth 0 (nth [::] B k) i
            & evalPoly (nth [::] (w qap) i) (k.+1)%:R
              = nth 0 (nth [::] C k) i]].
Proof.
move=> uniq_pts mxA mxB mxC.
case: (posnP m) => [m0|m_gt0] /=.
  have -> : A = [::] by apply: size0nil; move: mxA => /andP [/eqP -> _].
  by [].
case: (posnP n) => [n0|n_gt0] /=.
  rewrite /fromR1csToQap (transpose_ok 0 m_gt0 mxA) (transpose_ok 0 m_gt0 mxB).
  by rewrite (transpose_ok 0 m_gt0 mxC) n0.
have [us [vs [ws [Hq [sz_u sz_v sz_w] [all_u all_v all_w] ev]]]] :=
  fromR1csToQapP lpub m_gt0 n_gt0 uniq_pts mxA mxB mxC.
exists (mkQAP lpub us vs ws); split=> //.
by rewrite /wf_qap /= sz_u sz_v sz_w !eqxx all_u all_v all_w.
Qed.

(** X13. The solution check is the R1CS: on the QAP made from the
    matrices, [computeSolutionPoly] throws exactly when the witness (with
    the constant 1 in front) violates one of the constraints
    [(A_k . s) * (B_k . s) = C_k . s]. *)
Theorem computeSolutionPoly_r1cs lpub A B C m n (witness : seq F) :
  (0 < m)%N -> distinct_points F m ->
  is_matrix m n A -> is_matrix m n B -> is_matrix m n C ->
  (size witness).+1 = n ->
  exists qap,
    fromR1csToQap lpub A B C = Ok qap /\
    throws (computeSolutionPoly ops (1 :: witness) qap)
    = ~~ satisfies ops A B C witness.
Proof.
move=> m_gt0 uniq_pts mxA mxB mxC sz_wit.
have n_gt0 : (0 < n)%N by rewrite -sz_wit.
have [qap [Hq _ _ Hthrows]] :=
  solution_check_r1cs lpub m_gt0 n_gt0 uniq_pts mxA mxB mxC sz_wit.
by exists qap.
Qed.

(** X14. Dividing by the vanishing polynomial: when [ht] is zero at every
    point [1, ..., m], [computeDivisorPoly(ht, tPoly(m))] returns a
    quotient [h] of [len(ht) - m] coefficients with [ht = h * t] at every
    point; when [ht] is not zero at one of them, it throws. *)
Theorem computeDivisorPoly_vanishing (ht : seq F) m :
  distinct_points F m ->
  if all (fun k => evalPoly ht k%:R == 0) (iota 1 m)
  then exists h,
    [/\ computeDivisorPoly ops ht (tPoly ops m) = Ok h,
        size h = (size ht - m)%N
      & forall x, evalPoly ht x = evalPoly h x * evalPoly (tPoly ops m) x]
  else throws (computeDivisorPoly ops ht (tPoly ops m)).
Proof.
move=> uniq_pts.
have [h [sz_h Ph Hdiv]] := @computeDivisorPoly_tPoly ht m uniq_pts.
case: ifP Hdiv => vanish Hdiv; last by rewrite Hdiv.
exists h; split=> // x.
rewrite !evalPolyE -hornerM Ph divpK // tPoly_dvdp //.
by rewrite -(@eq_all _ (fun k => evalPoly ht k%:R == 0)) // => k;
  rewrite evalPolyE.
Qed.

End R1csTheory.

(** ** groth16.ts over a field, two modules and a bilinear pairing *)

Section Groth16Theory.

Local Open Scope ring_scope.
Import GRing.Theory.

Variable F : fieldType.
Variables G1 G2 GT : lmodType F.
Variables (gen1 : G1) (gen2 : G2).
Variable e : G1 -> G2 -> GT.
Variable validatePairing : seq G1 -> seq G2 -> result bool.

Local Notation ops := (fieldFr F).
Local Notation g1 := (moduleG gen1).
Local Notation g2 := (moduleG gen2).

Lemma reduce1_sum (G : lmodType F) (gen : G) (s : seq G) :
  (0 < size s)%N -> reduce1 (G_add (moduleG gen)) s = Ok (\sum_(x <- s) x).
Proof.
case: s => [|x s] // _; rewrite /= big_cons; congr Ok.
elim: s x => [|y s IH] x /=; first by rewrite big_nil addr0.
by rewrite IH big_cons addrA.
Qed.

(** Folding coefficients against points that are multiples of the
    generator. *)
Lemma foldCoeffs_scaled (G : lmodType F) (gen : G) (coeffs : seq F)
    (c : nat -> F) k :
  (0 < size coeffs <= k)%N ->
  foldCoeffs ops (moduleG gen) coeffs [seq c i *: gen | i <- iota 0 k]
  = Ok ((\sum_(0 <= i < size coeffs) coeffs`_i * c i) *: gen).
Proof.
move=> /andP [c_gt0 le_ck].
rewrite foldCoeffs_ok ?size_map ?size_iota // reduce1_sum.
  by rewrite size_map size_iota.
rewrite big_map scaler_suml /index_iota subn0 big_seq [in RHS]big_seq.
congr Ok; apply: eq_bigr => i; rewrite mem_iota add0n /= => lt_i.
rewrite (nth_map 0%N) ?size_iota ?nth_iota ?add0n ?scalerA //;
  exact: leq_trans le_ck.
Qed.

Lemma foldPoints_scaled (G : lmodType F) (gen : G) (scalars : seq F)
    (c : nat -> F) k :
  (0 < k <= size scalars)%N ->
  foldPoints (moduleG gen) [seq c i *: gen | i <- iota 0 k] scalars
  = Ok ((\sum_(0 <= i < k) scalars`_i * c i) *: gen).
Proof.
move=> /andP [k_gt0 le_k].
rewrite (foldPoints_ok ops) ?size_map ?size_iota // reduce1_sum.
  by rewrite size_map size_iota.
rewrite big_map scaler_suml /index_iota subn0 big_seq [in RHS]big_seq.
congr Ok; apply: eq_bigr => i; rewrite mem_iota add0n /= => lt_i.
by rewrite (nth_map 0%N) ?size_iota ?nth_iota ?add0n ?scalerA.
Qed.

Lemma map_iota_take (T : Type) (f : nat -> T) k n :
  take k [seq f i | i <- iota 0 n] = [seq f i | i <- iota 0 (minn k n)].
Proof. by rewrite -map_take take_iota. Qed.

Lemma map_iota_drop (T : Type) (f : nat -> T) k n :
  drop k [seq f i | i <- iota 0 n] = [seq f (k + i)%N | i <- iota 0 (n - k)].
Proof. by rewrite -map_drop drop_iota add0n -{1}(addn0 k) iotaDl -map_comp. Qed.

(** [setup] with invertible [gamma] and [delta]: every output is a
    multiple of a generator. *)
Lemma setupP (rnd : SetupRandomness F) (qap : QAP F) n :
  (0 < n)%N -> size (u qap) = n -> size (v qap) = n -> size (w qap) = n ->
  gamma rnd != 0 -> delta rnd != 0 ->
  let m := size (nth [::] (u qap) 0) in
  setup ops g1 g2 rnd qap =
  Ok (TrustedSetup.mk m
        [seq tau rnd ^+ i *: gen1 | i <- iota 0 m]
        [seq tau rnd ^+ i *: gen2 | i <- iota 0 m]
        (alpha rnd *: gen1) (beta rnd *: gen1) (beta rnd *: gen2)
        (gamma rnd *: gen2) (delta rnd *: gen1) (delta rnd *: gen2)
        [seq ((gamma rnd)^-1 * cTerm rnd qap i) *: gen1
        | i <- iota 0 (minn (l qap + 1) n)]
        [seq ((delta rnd)^-1 * cTerm rnd qap (l qap + 1 + i)) *: gen1
        | i <- iota 0 (n - (l qap + 1))]
        [seq ((delta rnd)^-1
              * (evalPoly ops (tPoly ops m) (tau rnd) * tau rnd ^+ i)) *: gen1
        | i <- iota 0 m]).
Proof.
move=> n_gt0 sz_u sz_v sz_w gamma_neq0 delta_neq0 m.
rewrite /setup (get_nth [::]) ?sz_u //= -/m.
rewrite (mapM_ok (g := fun i => cTerm rnd qap i *: gen1)) /=.
  move=> i; rewrite mem_iota add0n sz_w /= => lt_i.
  rewrite !(get_nth [::]) ?size_map ?sz_u ?sz_v //= !(nth_map [::]) ?sz_u ?sz_v //.
  congr (Ok (_ *: _)); rewrite /cTerm !evalPolyE !Poly_addPolys.
  by rewrite !Poly_map_scale !hornerD !hornerZ.
rewrite !inv_unit //= sz_w map_iota_take map_iota_drop -!map_comp.
congr (Ok (TrustedSetup.mk _ _ _ _ _ _ _ _ _ _ _ _));
  apply: eq_map => i /=; rewrite !scalerA ?mulrA; reflexivity.
Qed.

(** *** The pairing of multiples of the generators *)

Lemma pairing_scaled (a b : F) :
  bilinear e -> e (a *: gen1) (b *: gen2) = (a * b) *: e gen1 gen2.
Proof.
move=> [lin_l lin_r].
have e0l Q : e 0 Q = 0.
  have := lin_l 1 0 0 Q; rewrite scaler0 addr0 scale1r => /eqP.
  by rewrite -subr_eq0 opprD addrA subrr sub0r oppr_eq0 => /eqP.
have e0r P : e P 0 = 0.
  have := lin_r 1 P 0 0; rewrite scaler0 addr0 scale1r => /eqP.
  by rewrite -subr_eq0 opprD addrA subrr sub0r oppr_eq0 => /eqP.
rewrite -[a *: gen1]addr0 lin_l e0l addr0.
by rewrite -[b *: gen2]addr0 lin_r e0r addr0 scalerA.
Qed.

(** A pairing check on multiples of the generators, none of them the
    identity. *)
Lemma validatePairing_scaled (a1 a2 a3 a4 b1 b2 b3 b4 : F) :
  bilinear e -> pairing_correct e validatePairing ->
  identity_free [:: a1 *: gen1; a2 *: gen1; a3 *: gen1; a4 *: gen1]
                [:: b1 *: gen2; b2 *: gen2; b3 *: gen2; b4 *: gen2] ->
  validatePairing [:: a1 *: gen1; a2 *: gen1; a3 *: gen1; a4 *: gen1]
                  [:: b1 *: gen2; b2 *: gen2; b3 *: gen2; b4 *: gen2]
  = Ok ((a1 * b1 + a2 * b2 + a3 * b3 + a4 * b4) *: e gen1 gen2 == 0).
Proof.
move=> bil correct /correct ->; congr (Ok (_ == 0)).
rewrite /= !big_cons big_nil /= addr0.
by rewrite !pairing_scaled // -!scalerDl !addrA.
Qed.

Lemma horner_PolyE (s : seq F) x :
  (Poly s).[x] = \sum_(0 <= i < size s) s`_i * x ^+ i.
Proof.
rewrite PolyE horner_sum; apply: eq_bigr => i _.
by rewrite hornerZ hornerXn.
Qed.

Local Arguments foldCoeffs : simpl never.
Local Arguments foldPoints : simpl never.
Local Arguments computeSolutionPoly : simpl never.
Local Arguments computeDivisorPoly : simpl never.
Local Arguments tPoly : simpl never.
Local Arguments evalPoly : simpl never.
Local Arguments identity_free : simpl never.
Local Arguments verify : simpl never.

(** [verify] on a proof and a key that are multiples of the generators:
    the fold of the public inputs and the call of the pairing check. *)
Lemma verify_scaled (a b c al be ga de : F) (cs : nat -> F) k
    (pub : seq F) :
  size pub = k ->
  let pubSum := (\sum_(0 <= i < k + 1) (1 :: pub)`_i * cs i) *: gen1 in
  foldPoints g1 [seq cs i *: gen1 | i <- iota 0 (k + 1)] (1 :: pub)
  = Ok pubSum /\
  verify ops g1 validatePairing (a *: gen1, c *: gen1, b *: gen2) pub
    (VerificationKey.mk (al *: gen1) (be *: gen2) (ga *: gen2) (de *: gen2)
       [seq cs i *: gen1 | i <- iota 0 (k + 1)])
  = validatePairing [:: - (a *: gen1); al *: gen1; pubSum; c *: gen1]
                    [:: b *: gen2; be *: gen2; ga *: gen2; de *: gen2].
Proof.
move=> sz_pub pubSum.
have Hfold : foldPoints g1 [seq cs i *: gen1 | i <- iota 0 (k + 1)] (1 :: pub)
             = Ok pubSum.
  by rewrite foldPoints_scaled //= sz_pub addn1 ltnSn.
split=> //; rewrite verifyP.
rewrite [VerificationKey.cTauPublicG1 _]/= size_map size_iota sz_pub.
have -> : (k.+1 != (k + 1)%N) = false by rewrite addn1 eqxx.
by rewrite Hfold.
Qed.

(** *** The honest prover *)

Section Honest.

Variables (rnd : SetupRandomness F) (r s : F) (qap : QAP F).
Variables (witness : seq F) (n m : nat).

Hypothesis bil : bilinear e.
Hypothesis correct : pairing_correct e validatePairing.
Hypothesis wf : wf_qap n m qap.
Hypothesis sz_wit : (size witness).+1 = n.
Hypothesis gamma0 : gamma rnd != 0.
Hypothesis delta0 : delta rnd != 0.
Hypothesis uniq_pts : distinct_points F m.
Hypothesis passes :
  throws (computeSolutionPoly ops (1 :: witness) qap) = false.

(** The scalar of the public-input sum for the public inputs [pub]. *)
Local Notation pubScalar pub :=
  (\sum_(0 <= i < l qap + 1)
      (1 :: pub)`_i * ((gamma rnd)^-1 * cTerm rnd qap i)).

(** The key that [prove] returns. *)
Local Notation honestKey :=
  (VerificationKey.mk (alpha rnd *: gen1) (beta rnd *: gen2)
     (gamma rnd *: gen2) (delta rnd *: gen2)
     [seq ((gamma rnd)^-1 * cTerm rnd qap i) *: gen1
     | i <- iota 0 (l qap + 1)]).

(** With at least two constraints and a private variable, [prove] without
    the self check returns multiples [a], [c] of the first and [b] of the
    second generator, tied by the equation that the pairing check tests;
    the self check passes when none of its arguments is the identity. *)
Lemma honest_proof (shouldCheckProof : bool) :
  (1 < m)%N -> (l qap + 1 < n)%N ->
  exists a b c : F,
    [/\ (trustedSetup <- setup ops g1 g2 rnd qap ;;
         prove ops g1 g2 validatePairing r s trustedSetup qap witness false)
        = Ok ((a *: gen1, c *: gen1, b *: gen2), honestKey),
        a * b = alpha rnd * beta rnd
                + \sum_(0 <= i < l qap + 1)
                     (1 :: witness)`_i * cTerm rnd qap i
                + c * delta rnd
      & identity_free
          [:: - (a *: gen1); alpha rnd *: gen1; pubScalar witness *: gen1;
              c *: gen1]
          [:: b *: gen2; beta rnd *: gen2; gamma rnd *: gen2;
              delta rnd *: gen2] ->
        (trustedSetup <- setup ops g1 g2 rnd qap ;;
         prove ops g1 g2 validatePairing r s trustedSetup qap witness
           shouldCheckProof)
        = Ok ((a *: gen1, c *: gen1, b *: gen2), honestKey)].
Proof.
move=> m_gt1 lt_l.
have [[sz_u sz_v sz_w] [all_u all_v all_w]] := wf_qapP wf.
have n_gt0 : (0 < n)%N by rewrite -sz_wit.
set sv := 1 :: witness.
have sz_sv : size sv = n by [].
have vanish :
    all (fun k => (solution_poly sv qap).[k%:R] == 0) (iota 1 m).
  by have := solution_check wf sz_sv n_gt0; rewrite passes => /esym/negbFE.
have u_gt0 : (0 < size (u qap))%N by rewrite sz_u.
have u0_sz : size (nth [::] (u qap) 0) = m.
  by rewrite (eqP (allP all_u _ (mem_nth _ u_gt0))).
have sz_u' : size (u qap) = size sv by rewrite sz_sv.
have sz_v' : size (v qap) = size sv by rewrite sz_sv.
have sz_w' : size (w qap) = size sv by rewrite sz_sv.
have [au [av [ht [Hsol [sz_au sz_av sz_ht] Pau Pav Pht]]]] :=
  @computeSolutionPoly_ok F sv qap m isT sz_u' sz_v' sz_w' all_u all_v all_w
    vanish.
have vanish' : all (fun k => evalPoly ops ht k%:R == 0) (iota 1 m).
  by apply/allP => k k_in; rewrite evalPolyE Pht (allP vanish).
have [h [sz_h Ph Hdiv]] := @computeDivisorPoly_tPoly F ht m uniq_pts.
have sz_h' : size h = m.-1.
  by rewrite sz_h sz_ht; move: m_gt1; nat_lia.
rewrite (setupP n_gt0 sz_u sz_v sz_w gamma0 delta0) u0_sz /=.
rewrite /prove -/sv Hsol /=.
rewrite !(@foldCoeffs_scaled _ _ _ (fun i => tau rnd ^+ i) m) ?sz_au ?sz_av;
  try by rewrite leqnn (ltnW m_gt1).
rewrite /= (get_nth [::]) //= u0_sz Hdiv vanish' /=.
rewrite (@foldCoeffs_scaled _ _ h
           (fun i => (delta rnd)^-1
                     * (evalPoly ops (tPoly ops m) (tau rnd) * tau rnd ^+ i)) m);
  first by rewrite sz_h'; apply/andP; split; move: m_gt1; nat_lia.
rewrite /= (@foldCoeffs_scaled _ _ (drop (l qap + 1) sv)
              (fun i => (delta rnd)^-1 * cTerm rnd qap (l qap + 1 + i))
              (n - (l qap + 1)));
  first by rewrite size_drop sz_sv leqnn subn_gt0 lt_l.
rewrite /= (@foldPoints_scaled _ _ sv
              (fun i => (gamma rnd)^-1 * cTerm rnd qap i)
              (minn (l qap + 1) n));
  first by rewrite sz_sv geq_minr leq_min n_gt0 addn1.
rewrite /=.
set AU := \sum_(0 <= i < m) au`_i * _; set AV := \sum_(0 <= i < m) av`_i * _.
set PUB := \sum_(0 <= i < minn _ _) _.
set PRIV := \sum_(0 <= i < size (drop _ _)) _.
set HT := \sum_(0 <= i < size h) _.
pose U := (linear_combination sv (u qap)).[tau rnd].
pose V := (linear_combination sv (v qap)).[tau rnd].
pose W := (linear_combination sv (w qap)).[tau rnd].
have EAU : AU = U by rewrite /AU -sz_au -horner_PolyE Pau.
have EAV : AV = V by rewrite /AV -sz_av -horner_PolyE Pav.
have Elp : minn (l qap + 1) n = (l qap + 1)%N.
  by apply/minn_idPl; apply: ltnW.
have Eg x : (gamma rnd)^-1 * x * gamma rnd = x.
  by rewrite mulrAC mulVf // mul1r.
have Ed x : (delta rnd)^-1 * x * delta rnd = x.
  by rewrite mulrAC mulVf // mul1r.
have EPUB : PUB * gamma rnd
            = \sum_(0 <= i < l qap + 1) sv`_i * cTerm rnd qap i.
  rewrite /PUB Elp mulr_suml; apply: eq_bigr => i _.
  by rewrite -mulrA Eg.
have EPRIV : PRIV * delta rnd
             = \sum_(l qap + 1 <= i < n) sv`_i * cTerm rnd qap i.
  have -> : \sum_(l qap + 1 <= i < n) sv`_i * cTerm rnd qap i
          = \sum_(0 <= i < n - (l qap + 1))
               sv`_(l qap + 1 + i) * cTerm rnd qap (l qap + 1 + i).
    rewrite -[X in \sum_(X <= i < n) _]add0n big_addn.
    by apply: eq_bigr => i _; rewrite addnC.
  rewrite /PRIV size_drop sz_sv mulr_suml; apply: eq_bigr => i _.
  by rewrite -mulrA Ed nth_drop.
have Esum : \sum_(0 <= i < n) sv`_i * cTerm rnd qap i
            = beta rnd * U + alpha rnd * V + W.
  rewrite /U /V /W !linear_combination_eval sz_u sz_v sz_w !mulr_sumr.
  rewrite -!big_split /=; apply: eq_bigr => i _.
  by rewrite /cTerm; ring.
have EHT : HT * delta rnd = U * V - W.
  have dvd : Poly (tPoly ops m) %| Poly ht.
    by rewrite tPoly_dvdp // Pht.
  have -> : U * V - W = (Poly ht).[tau rnd].
    by rewrite Pht /solution_poly hornerD hornerN hornerM.
  rewrite -(divpK dvd) -Ph hornerM (horner_PolyE h) -(evalPolyE (tPoly ops m)).
  rewrite /HT !mulr_suml; apply: eq_bigr => i _.
  by rewrite -mulrA Ed; ring.
have Hkey : PUB * gamma rnd + (PRIV + HT) * delta rnd
            = beta rnd * AU + alpha rnd * AV + AU * AV.
  rewrite mulrDl EPUB EPRIV EHT addrA -big_cat_nat ?(ltnW lt_l) //=.
  by rewrite Esum EAU EAV; ring.
pose a := alpha rnd + AU + r * delta rnd.
pose b := beta rnd + AV + s * delta rnd.
pose c := PRIV + HT + s * a + r * b - r * s * delta rnd.
have Eabc : a * b = alpha rnd * beta rnd + PUB * gamma rnd + c * delta rnd.
  apply/eqP; rewrite -subr_eq0; apply/eqP.
  have -> : a * b - (alpha rnd * beta rnd + PUB * gamma rnd + c * delta rnd)
          = (beta rnd * AU + alpha rnd * AV + AU * AV)
            - (PUB * gamma rnd + (PRIV + HT) * delta rnd).
    by rewrite /c /a /b; ring.
  by rewrite Hkey subrr.
rewrite !scalerA -!scalerDl !scalerA -!scalerDl -scalerBl -/a -/b.
rewrite -/c Elp.
exists a, b, c; split=> //; first by rewrite Eabc EPUB.
have -> : pubScalar witness = PUB by rewrite /PUB Elp.
rewrite -scaleNr => idfree.
rewrite (validatePairing_scaled bil correct idfree).
have -> : - a * b + alpha rnd * beta rnd + PUB * gamma rnd + c * delta rnd = 0.
  by rewrite mulNr Eabc; ring.
by rewrite scale0r eqxx; case: shouldCheckProof.
Qed.

(** With fewer than two constraints the quotient [h] is empty, and without
    a private variable the private slice of the witness is empty: either
    way a [reduce] without initial value throws. *)
Lemma honest_degenerate (shouldCheckProof : bool) :
  ~~ ((1 < m) && (l qap + 1 < n))%N ->
  (trustedSetup <- setup ops g1 g2 rnd qap ;;
   prove ops g1 g2 validatePairing r s trustedSetup qap witness
     shouldCheckProof) = Throw TypeError.
Proof.
move=> degenerate.
have [[sz_u sz_v sz_w] [all_u all_v all_w]] := wf_qapP wf.
have n_gt0 : (0 < n)%N by rewrite -sz_wit.
set sv := 1 :: witness.
have sz_sv : size sv = n by [].
have vanish :
    all (fun k => (solution_poly sv qap).[k%:R] == 0) (iota 1 m).
  by have := solution_check wf sz_sv n_gt0; rewrite passes => /esym/negbFE.
have u_gt0 : (0 < size (u qap))%N by rewrite sz_u.
have u0_sz : size (nth [::] (u qap) 0) = m.
  by rewrite (eqP (allP all_u _ (mem_nth _ u_gt0))).
have sz_u' : size (u qap) = size sv by rewrite sz_sv.
have sz_v' : size (v qap) = size sv by rewrite sz_sv.
have sz_w' : size (w qap) = size sv by rewrite sz_sv.
have [au [av [ht [Hsol [sz_au sz_av sz_ht] Pau Pav Pht]]]] :=
  @computeSolutionPoly_ok F sv qap m isT sz_u' sz_v' sz_w' all_u all_v all_w
    vanish.
have vanish' : all (fun k => evalPoly ops ht k%:R == 0) (iota 1 m).
  by apply/allP => k k_in; rewrite evalPolyE Pht (allP vanish).
have [h [sz_h Ph Hdiv]] := @computeDivisorPoly_tPoly F ht m uniq_pts.
rewrite (setupP n_gt0 sz_u sz_v sz_w gamma0 delta0) u0_sz /=.
rewrite /prove -/sv Hsol /=.
case: (posnP m) => [m0|m_gt0].
  have -> : au = [::] by apply: size0nil; rewrite sz_au.
  by rewrite foldCoeffs_nil.
rewrite !(@foldCoeffs_scaled _ _ _ (fun i => tau rnd ^+ i) m) ?sz_au ?sz_av;
  try by rewrite leqnn m_gt0.
rewrite /= (get_nth [::]) //= u0_sz Hdiv vanish' /=.
case: (ltnP 1 m) degenerate => [m_gt1 /=|m_le1 _]; last first.
  have -> : h = [::].
    by apply: size0nil; rewrite sz_h sz_ht; move: m_gt0 m_le1; nat_lia.
  by rewrite foldCoeffs_nil.
rewrite -leqNgt => le_n.
rewrite (@foldCoeffs_scaled _ _ h
           (fun i => (delta rnd)^-1
                     * (evalPoly ops (tPoly ops m) (tau rnd) * tau rnd ^+ i)) m);
  first by rewrite sz_h sz_ht; apply/andP; split; move: m_gt1; nat_lia.
by rewrite /= drop_oversize ?sz_sv // foldCoeffs_nil.
Qed.

(** The proof does not depend on the self check. *)
Lemma honest_proof_all :
  (1 < m)%N -> (l qap + 1 < n)%N ->
  exists a b c : F,
    [/\ (trustedSetup <- setup ops g1 g2 rnd qap ;;
         prove ops g1 g2 validatePairing r s trustedSetup qap witness false)
        = Ok ((a *: gen1, c *: gen1, b *: gen2), honestKey),
        a * b = alpha rnd * beta rnd
                + \sum_(0 <= i < l qap + 1)
                     (1 :: witness)`_i * cTerm rnd qap i
                + c * delta rnd
      & forall shouldCheckProof : bool,
        identity_free
          [:: - (a *: gen1); alpha rnd *: gen1; pubScalar witness *: gen1;
              c *: gen1]
          [:: b *: gen2; beta rnd *: gen2; gamma rnd *: gen2;
              delta rnd *: gen2] ->
        (trustedSetup <- setup ops g1 g2 rnd qap ;;
         prove ops g1 g2 validatePairing r s trustedSetup qap witness
           shouldCheckProof)
        = Ok ((a *: gen1, c *: gen1, b *: gen2), honestKey)].
Proof.
move=> m_gt1 lt_l.
have [a [b [c [E key _]]]] := honest_proof false m_gt1 lt_l.
exists a, b, c; split=> // shouldCheckProof.
have [a' [b' [c' [E' _]]]] := honest_proof shouldCheckProof m_gt1 lt_l.
by move: E'; rewrite E => -[<- <- <-].
Qed.

(** [verify] on the honest proof and arbitrary public inputs of the right
    length, when no argument of the pairing check is the identity. *)
Lemma honest_verify_pub (a b c : F) (pub : seq F) :
  a * b = alpha rnd * beta rnd
          + \sum_(0 <= i < l qap + 1) (1 :: witness)`_i * cTerm rnd qap i
          + c * delta rnd ->
  size pub = l qap ->
  foldPoints g1 (VerificationKey.cTauPublicG1 honestKey) (1 :: pub)
  = Ok (pubScalar pub *: gen1) /\
  (identity_free
     [:: - (a *: gen1); alpha rnd *: gen1; pubScalar pub *: gen1; c *: gen1]
     [:: b *: gen2; beta rnd *: gen2; gamma rnd *: gen2; delta rnd *: gen2] ->
   verify ops g1 validatePairing (a *: gen1, c *: gen1, b *: gen2) pub
     honestKey
   = Ok ((\sum_(0 <= i < l qap + 1)
             ((1 :: pub)`_i - (1 :: witness)`_i) * cTerm rnd qap i == 0)
         || (e gen1 gen2 == 0))).
Proof.
move=> key sz_pub.
have [Hfold Hverify] :=
  @verify_scaled a b c (alpha rnd) (beta rnd) (gamma rnd) (delta rnd)
    (fun i => (gamma rnd)^-1 * cTerm rnd qap i) (l qap) pub sz_pub.
split; first exact: Hfold.
rewrite Hverify -scaleNr => idfree.
rewrite (validatePairing_scaled bil correct idfree).
rewrite scaler_eq0; congr (Ok ((_ == 0) || _)).
have -> : pubScalar pub * gamma rnd
          = \sum_(0 <= i < l qap + 1) (1 :: pub)`_i * cTerm rnd qap i.
  rewrite mulr_suml; apply: eq_bigr => i _.
  by rewrite -mulrA; congr (_ * _); rewrite mulrAC mulVf // mul1r.
have -> : \sum_(0 <= i < l qap + 1)
             ((1 :: pub)`_i - (1 :: witness)`_i) * cTerm rnd qap i
        = \sum_(0 <= i < l qap + 1) (1 :: pub)`_i * cTerm rnd qap i
          - \sum_(0 <= i < l qap + 1) (1 :: witness)`_i * cTerm rnd qap i.
  by rewrite -sumrB; apply: eq_bigr => i _; rewrite mulrBl.
by rewrite mulNr key; ring.
Qed.

(** The public prefix of the witness gives the public-input sum of
    [prove]. *)
Lemma pubScalar_take :
  (l qap + 1 < n)%N ->
  pubScalar (take (l qap) witness) = pubScalar witness.
Proof.
move=> lt_l; have lt_lw : (l qap < size witness)%N.
  by move: lt_l sz_wit; nat_lia.
rewrite big_nat [RHS]big_nat; apply: eq_bigr => i.
rewrite addn1 => /andP [_ lt_i]; congr (_ * _).
by case: i lt_i => [|i] //= lt_i; rewrite nth_take.
Qed.

(** Completeness: the flow on the public prefix of the witness. *)
Lemma honest_complete :
  (1 < m)%N -> (l qap + 1 < n)%N ->
  exists proof vk pubSum,
    [/\ (trustedSetup <- setup ops g1 g2 rnd qap ;;
         prove ops g1 g2 validatePairing r s trustedSetup qap witness false)
        = Ok (proof, vk),
        foldPoints g1 (VerificationKey.cTauPublicG1 vk)
          (1 :: take (l qap) witness) = Ok pubSum
      & identity_free
          [:: - proof.1.1; VerificationKey.alphaG1 vk; pubSum; proof.1.2]
          [:: proof.2; VerificationKey.betaG2 vk; VerificationKey.gammaG2 vk;
              VerificationKey.deltaG2 vk] ->
        forall shouldCheckProof : bool,
          (trustedSetup <- setup ops g1 g2 rnd qap ;;
           pv <- prove ops g1 g2 validatePairing r s trustedSetup qap witness
                   shouldCheckProof ;;
           verify ops g1 validatePairing pv.1 (take (l qap) witness) pv.2)
          = Ok true].
Proof.
move=> m_gt1 lt_l.
have lt_lw : (l qap < size witness)%N by move: lt_l sz_wit; nat_lia.
have sz_pub : size (take (l qap) witness) = l qap by rewrite size_take lt_lw.
have [a [b [c [E key Hflag]]]] := honest_proof_all m_gt1 lt_l.
have [Hfold Hverify] := honest_verify_pub key sz_pub.
exists (a *: gen1, c *: gen1, b *: gen2), honestKey.
exists (pubScalar (take (l qap) witness) *: gen1); split=> //.
move=> /= idfree shouldCheckProof.
have := Hflag shouldCheckProof; rewrite -(pubScalar_take lt_l) => /(_ idfree).
case: (setup _ _ _ _ _) => [trustedSetup|err] //= -> /=.
rewrite (Hverify idfree) big_nat big1 ?eqxx // => i.
rewrite addn1 => /andP [_ lt_i].
suff -> : (1 :: take (l qap) witness)`_i = (1 :: witness)`_i.
  by rewrite subrr mul0r.
by case: i lt_i => [|i] //= lt_i; rewrite nth_take.
Qed.

End Honest.

(** The outcome of the flow on a well-formed QAP, from the lemmas on the
    honest prover. *)
Lemma prove_flow (rnd : SetupRandomness F) (r s : F)
    (qap : QAP F) (witness : seq F) n m :
  bilinear e -> pairing_correct e validatePairing ->
  wf_qap n m qap -> (size witness).+1 = n ->
  gamma rnd != 0 -> delta rnd != 0 -> distinct_points F m ->
  throws (computeSolutionPoly ops (1 :: witness) qap) = false ->
  if (1 < m)%N && (l qap + 1 < n)%N then
    exists proof vk pubSum,
      [/\ (trustedSetup <- setup ops g1 g2 rnd qap ;;
           prove ops g1 g2 validatePairing r s trustedSetup qap witness
             false) = Ok (proof, vk),
          foldPoints g1 (VerificationKey.cTauPublicG1 vk)
            (1 :: take (l qap) witness) = Ok pubSum
        & identity_free
            [:: - proof.1.1; VerificationKey.alphaG1 vk; pubSum; proof.1.2]
            [:: proof.2; VerificationKey.betaG2 vk;
                VerificationKey.gammaG2 vk; VerificationKey.deltaG2 vk] ->
          forall shouldCheckProof : bool,
            (trustedSetup <- setup ops g1 g2 rnd qap ;;
             pv <- prove ops g1 g2 validatePairing r s trustedSetup qap
                     witness shouldCheckProof ;;
             verify ops g1 validatePairing pv.1 (take (l qap) witness) pv.2)
            = Ok true]
  else
    forall shouldCheckProof : bool,
      (trustedSetup <- setup ops g1 g2 rnd qap ;;
       pv <- prove ops g1 g2 validatePairing r s trustedSetup qap witness
               shouldCheckProof ;;
       verify ops g1 validatePairing pv.1 (take (l qap) witness) pv.2)
      = Throw TypeError.
Proof.
move=> bil correct wf sz_wit gamma0 delta0 uniq_pts passes.
case: ifP => [/andP [m_gt1 lt_l]|/negbT degenerate].
  exact: (honest_complete r s bil correct wf sz_wit gamma0 delta0 uniq_pts
            passes m_gt1 lt_l).
move=> shouldCheckProof.
have := honest_degenerate r s wf sz_wit gamma0 delta0 uniq_pts passes
          shouldCheckProof degenerate.
by case: (setup _ _ _ _ _) => [trustedSetup|err] /= => [->|[->]].
Qed.

(** X15. The outcomes of [setup] on a QAP with [n] basis polynomials of [m]
    coefficients in each of [u], [v] and [w]: no basis polynomial at all
    raises a TypeError on [u[0].length]; a zero [gamma] or [delta] makes
    the inverse fail; otherwise every output is a multiple of a generator:
    the powers of [tau], the five secrets, and the C terms
    [beta * u_i(tau) + alpha * v_i(tau) + w_i(tau)] divided by [gamma] for
    the first [l + 1] variables and by [delta] for the others, and
    [t(tau) * tau^i / delta]. *)
Theorem setup_outcome (rnd : SetupRandomness F) (qap : QAP F) n m :
  wf_qap n m qap ->
  setup ops g1 g2 rnd qap =
  if n == 0%N then Throw TypeError
  else if (gamma rnd == 0) || (delta rnd == 0) then Throw InverseOfZero
  else
    Ok (TrustedSetup.mk m
          [seq tau rnd ^+ i *: gen1 | i <- iota 0 m]
          [seq tau rnd ^+ i *: gen2 | i <- iota 0 m]
          (alpha rnd *: gen1) (beta rnd *: gen1) (beta rnd *: gen2)
          (gamma rnd *: gen2) (delta rnd *: gen1) (delta rnd *: gen2)
          [seq ((gamma rnd)^-1 * cTerm rnd qap i) *: gen1
          | i <- iota 0 (minn (l qap + 1) n)]
          [seq ((delta rnd)^-1 * cTerm rnd qap (l qap + 1 + i)) *: gen1
          | i <- iota 0 (n - (l qap + 1))]
          [seq ((delta rnd)^-1
                * (evalPoly ops (tPoly ops m) (tau rnd) * tau rnd ^+ i))
               *: gen1
          | i <- iota 0 m]).
Proof.
move=> wf; have [[sz_u sz_v sz_w] [all_u all_v all_w]] := wf_qapP wf.
case: (posnP n) => [n0|n_gt0].
  by rewrite /setup (size0nil (etrans sz_u n0)).
have u_gt0 : (0 < size (u qap))%N by rewrite sz_u.
have u0_sz : size (nth [::] (u qap) 0) = m.
  by rewrite (eqP (allP all_u _ (mem_nth _ u_gt0))).
case: (boolP (gamma rnd == 0)) => [/eqP gamma0|gamma0] /=; last first.
  case: (boolP (delta rnd == 0)) => [/eqP delta0|delta0] /=; last first.
    by rewrite (setupP n_gt0 sz_u sz_v sz_w gamma0 delta0) u0_sz.
  rewrite /setup (get_nth [::]) ?sz_u //=.
  rewrite (mapM_ok (g := fun i => cTerm rnd qap i *: gen1)) /=.
    move=> i; rewrite mem_iota add0n sz_w /= => lt_i.
    rewrite !(get_nth [::]) ?size_map ?sz_u ?sz_v //=.
    rewrite !(nth_map [::]) ?sz_u ?sz_v //.
    congr (Ok (_ *: _)); rewrite /cTerm !evalPolyE !Poly_addPolys.
    by rewrite !Poly_map_scale !hornerD !hornerZ.
  by rewrite inv_unit //= delta0 inv_zero.
rewrite /setup (get_nth [::]) ?sz_u //=.
rewrite (mapM_ok (g := fun i => cTerm rnd qap i *: gen1)) /=.
  move=> i; rewrite mem_iota add0n sz_w /= => lt_i.
  rewrite !(get_nth [::]) ?size_map ?sz_u ?sz_v //=.
  rewrite !(nth_map [::]) ?sz_u ?sz_v //.
  congr (Ok (_ *: _)); rewrite /cTerm !evalPolyE !Poly_addPolys.
  by rewrite !Poly_map_scale !hornerD !hornerZ.
by rewrite gamma0 inv_zero.
Qed.

(** X16. Completeness and its limits, on a well-formed QAP whose solution
    check passes, for every setup randomness with invertible [gamma] and
    [delta], every prover randomness, a bilinear pairing and a pairing
    check that is right on arguments other than the identity.  With at
    least two constraints and at least one private variable, [prove]
    without the self check returns a proof and a key, the public prefix of
    the witness folds to a public-input sum, and, when none of the eight
    arguments of the pairing check is the identity, [verify] accepts the
    proof, with and without the self check of [prove].  In every other
    case a [reduce] of an empty array raises a TypeError. *)
Theorem prove_verify_outcome (rnd : SetupRandomness F) (r s : F)
    (qap : QAP F) (witness : seq F) n m :
  bilinear e -> pairing_correct e validatePairing ->
  wf_qap n m qap -> (size witness).+1 = n ->
  gamma rnd != 0 -> delta rnd != 0 -> distinct_points F m ->
  throws (computeSolutionPoly ops (1 :: witness) qap) = false ->
  if (1 < m)%N && (l qap + 1 < n)%N then
    exists proof vk pubSum,
      [/\ (trustedSetup <- setup ops g1 g2 rnd qap ;;
           prove ops g1 g2 validatePairing r s trustedSetup qap witness
             false) = Ok (proof, vk),
          foldPoints g1 (VerificationKey.cTauPublicG1 vk)
            (1 :: take (l qap) witness) = Ok pubSum
        & identity_free
            [:: - proof.1.1; VerificationKey.alphaG1 vk; pubSum; proof.1.2]
            [:: proof.2; VerificationKey.betaG2 vk;
                VerificationKey.gammaG2 vk; VerificationKey.deltaG2 vk] ->
          forall shouldCheckProof : bool,
            (trustedSetup <- setup ops g1 g2 rnd qap ;;
             pv <- prove ops g1 g2 validatePairing r s trustedSetup qap
                     witness shouldCheckProof ;;
             verify ops g1 validatePairing pv.1 (take (l qap) witness) pv.2)
            = Ok true]
  else
    forall shouldCheckProof : bool,
      (trustedSetup <- setup ops g1 g2 rnd qap ;;
       pv <- prove ops g1 g2 validatePairing r s trustedSetup qap witness
               shouldCheckProof ;;
       verify ops g1 validatePairing pv.1 (take (l qap) witness) pv.2)
      = Throw TypeError.
Proof. exact: prove_flow. Qed.

(** X17. What [verify] tests: on the proof and the key of the honest
    [prove] (at least two constraints, a private variable) and any public
    inputs [pub] of the right length, the fold of the public inputs
    succeeds and, when none of the arguments of the pairing check is the
    identity, [verify] returns true exactly when the C terms of the setup,
    weighted by the differences between [pub] and the public prefix of the
    witness, sum to zero (or the pairing of the generators is
    degenerate). *)
Theorem verify_public_inputs (rnd : SetupRandomness F) (r s : F)
    (qap : QAP F) (witness : seq F) n m :
  bilinear e -> pairing_correct e validatePairing ->
  wf_qap n m qap -> (size witness).+1 = n ->
  gamma rnd != 0 -> delta rnd != 0 -> distinct_points F m ->
  throws (computeSolutionPoly ops (1 :: witness) qap) = false ->
  (1 < m)%N -> (l qap + 1 < n)%N ->
  exists proof vk,
    (trustedSetup <- setup ops g1 g2 rnd qap ;;
     prove ops g1 g2 validatePairing r s trustedSetup qap witness false)
    = Ok (proof, vk) /\
    forall pub : seq F, size pub = l qap ->
      exists2 pubSum,
        foldPoints g1 (VerificationKey.cTauPublicG1 vk) (1 :: pub)
        = Ok pubSum
      & identity_free
          [:: - proof.1.1; VerificationKey.alphaG1 vk; pubSum; proof.1.2]
          [:: proof.2; VerificationKey.betaG2 vk;
              VerificationKey.gammaG2 vk; VerificationKey.deltaG2 vk] ->
        verify ops g1 validatePairing proof pub vk
        = Ok ((\sum_(0 <= i < l qap + 1)
                  ((1 :: pub)`_i - (1 :: witness)`_i) * cTerm rnd qap i
               == 0)
              || (e gen1 gen2 == 0)).
Proof.
move=> bil correct wf sz_wit gamma0 delta0 uniq_pts passes m_gt1 lt_l.
have [a [b [c [E key _]]]] :=
  honest_proof_all r s bil correct wf sz_wit gamma0 delta0 uniq_pts passes
    m_gt1 lt_l.
exists (a *: gen1, c *: gen1, b *: gen2); eexists; split; first exact: E.
move=> pub sz_pub.
have [Hfold Hverify] :=
  honest_verify_pub (witness := witness) bil correct gamma0 key sz_pub.
by eexists; first exact: Hfold.
Qed.

(** X18. The whole flow on an R1CS with [m] constraints over [n]
    variables, for a bilinear pairing and a pairing check that is right on
    arguments other than the identity.  When the witness violates a
    constraint, [prove] stops with the solution-polynomial error at the
    number of a violated constraint.  When it satisfies all of them and
    there are fewer than two constraints or no private variable, [prove]
    raises a TypeError.  Otherwise the QAP, the proof without self check
    and the public-input sum exist, and the flow returns true, with and
    without the self check, when none of the arguments of the pairing
    check is the identity. *)
Theorem pipeline_outcome (rnd : SetupRandomness F) (r s : F) (lpub : nat)
    (A B C : seq (seq F)) (witness : seq F) n m :
  bilinear e -> pairing_correct e validatePairing ->
  is_matrix m n A -> is_matrix m n B -> is_matrix m n C ->
  (size witness).+1 = n ->
  gamma rnd != 0 -> delta rnd != 0 -> distinct_points F m ->
  let run := pipeline ops g1 g2 validatePairing rnd r s lpub A B C witness in
  if satisfies ops A B C witness then
    if (1 < m)%N && (lpub + 1 < n)%N then
      exists qap proof vk pubSum,
        [/\ fromR1csToQap ops lpub A B C = Ok qap,
            (trustedSetup <- setup ops g1 g2 rnd qap ;;
             prove ops g1 g2 validatePairing r s trustedSetup qap witness
               false) = Ok (proof, vk),
            foldPoints g1 (VerificationKey.cTauPublicG1 vk)
              (1 :: take lpub witness) = Ok pubSum
          & identity_free
              [:: - proof.1.1; VerificationKey.alphaG1 vk; pubSum;
                  proof.1.2]
              [:: proof.2; VerificationKey.betaG2 vk;
                  VerificationKey.gammaG2 vk; VerificationKey.deltaG2 vk] ->
            forall shouldCheckProof : bool, run shouldCheckProof = Ok true]
    else forall shouldCheckProof : bool,
           run shouldCheckProof = Throw TypeError
  else exists2 k, (k < m)%N
         & forall shouldCheckProof : bool,
             run shouldCheckProof = Throw (SolutionNotZero k.+1).
Proof.
move=> bil correct mxA mxB mxC sz_wit gamma0 delta0 uniq_pts run.
have n_gt0 : (0 < n)%N by rewrite -sz_wit.
case: (posnP m) => [m0|m_gt0].
  have A0 : A = [::].
    by apply: size0nil; move: mxA => /andP [/eqP -> _].
  by rewrite /run /pipeline /fromR1csToQap /satisfies A0 m0.
have [qap [Hq [lq sz_u sz_v sz_w all_rows] _ Hthrows]] :=
  solution_check_r1cs lpub m_gt0 n_gt0 uniq_pts mxA mxB mxC sz_wit.
have wf : wf_qap n m qap.
  move: all_rows; rewrite !all_cat /wf_qap sz_u sz_v sz_w !eqxx /=.
  by move=> /and3P [-> -> ->].
rewrite /run /pipeline Hq /=.
case: ifP Hthrows => [sat|unsat] /= Hthrows.
  have := @prove_flow rnd r s qap witness n m bil correct wf sz_wit gamma0
            delta0 uniq_pts Hthrows.
  rewrite lq; case: ifP => _ // [proof [vk [pubSum [Hp Hf H]]]].
  by exists qap, proof, vk, pubSum.
have sz_sv : size (1 :: witness) = n by [].
have [k lt_k Hk] := solution_check_fails wf sz_sv n_gt0 Hthrows.
exists k => // shouldCheckProof.
have /wf_qapP [[sz_u' sz_v' sz_w'] _] := wf.
by rewrite (setupP n_gt0 sz_u sz_v sz_w gamma0 delta0) /= /prove Hk.
Qed.

End Groth16Theory.

(** * Further concrete inputs *)

Section MoreWitnesses.

Local Open Scope ring_scope.
Import GRing.Theory Examples QapExamples.

Lemma mulPairing_bilinear : bilinear mulPairing.
Proof.
by split=> a P P' Q; rewrite /mulPairing /GRing.scale /=; ring.
Qed.

Lemma divPolys_mulPolys_witness :
  divPolys (fieldFr rat) (mulPolys (fieldFr rat) p14 q12) q12
  = Ok (p14, nseq (size q12).-1 0).
Proof. apply: (@divPolys_mulPolys rat p14 q12); reflexivity. Defined.

Lemma interpolate_evalPoly_witness :
  interpolate (fieldFr rat) xs12
    [seq evalPoly (fieldFr rat) p14 x | x <- xs12] = Ok p14.
Proof. apply: (@interpolate_evalPoly rat p14 xs12); reflexivity. Defined.

Lemma transpose_matrix_witness :
  exists R,
    [/\ transpose A2q = Ok R, is_matrix 2 2 R
      & forall i j, (i < 2)%N -> (j < 2)%N ->
          nth None (nth [::] R i) j = Some (nth 0 (nth [::] A2q j) i)].
Proof. apply: (@transpose_matrix rat 0 A2q 2 2); reflexivity. Defined.

Lemma fromR1csToQap_interpolates_witness :
  exists qap,
    [/\ fromR1csToQap (fieldFr rat) 0 A2q B2q C2q = Ok qap, l qap = 0%N,
        wf_qap 2 2 qap
      & forall i k, (i < 2)%N -> (k < 2)%N ->
          [/\ evalPoly (fieldFr rat) (nth [::] (u qap) i) (k.+1)%:R
              = nth 0 (nth [::] A2q k) i,
              evalPoly (fieldFr rat) (nth [::] (v qap) i) (k.+1)%:R
              = nth 0 (nth [::] B2q k) i
            & evalPoly (fieldFr rat) (nth [::] (w qap) i) (k.+1)%:R
              = nth 0 (nth [::] C2q k) i]].
Proof.
apply: (@fromR1csToQap_interpolates rat 0 A2q B2q C2q 2 2); reflexivity.
Defined.

Lemma computeSolutionPoly_r1cs_witness :
  exists qap,
    fromR1csToQap (fieldFr rat) 0 A2q B2q C2q = Ok qap /\
    throws (computeSolutionPoly (fieldFr rat) (1 :: witness1q) qap)
    = ~~ satisfies (fieldFr rat) A2q B2q C2q witness1q.
Proof.
apply: (@computeSolutionPoly_r1cs rat 0 A2q B2q C2q 2 2 witness1q);
  reflexivity.
Defined.

Lemma computeDivisorPoly_vanishing_witness :
  if all (fun k : nat => evalPoly (fieldFr rat) x2m3xp2 k%:R == 0) (iota 1 2)
  then exists h,
    [/\ computeDivisorPoly (fieldFr rat) x2m3xp2 (tPoly (fieldFr rat) 2)
        = Ok h,
        size h = (size x2m3xp2 - 2)%N
      & forall x, evalPoly (fieldFr rat) x2m3xp2 x
                  = evalPoly (fieldFr rat) h x
                    * evalPoly (fieldFr rat) (tPoly (fieldFr rat) 2) x]
  else throws (computeDivisorPoly (fieldFr rat) x2m3xp2 (tPoly (fieldFr rat) 2)).
Proof.
have distinct : distinct_points rat 2 by vm_compute.
exact: (@computeDivisorPoly_vanishing rat x2m3xp2 2 distinct).
Defined.

Lemma setup_outcome_witness :
  setup (fieldFr rat) (moduleG (1 : rat^o)) (moduleG (1 : rat^o)) rndq qap2
  = Ok (TrustedSetup.mk 2
          [seq tau rndq ^+ i *: (1 : rat^o) | i <- iota 0 2]
          [seq tau rndq ^+ i *: (1 : rat^o) | i <- iota 0 2]
          (alpha rndq *: (1 : rat^o)) (beta rndq *: (1 : rat^o))
          (beta rndq *: (1 : rat^o)) (gamma rndq *: (1 : rat^o))
          (delta rndq *: (1 : rat^o)) (delta rndq *: (1 : rat^o))
          [seq ((gamma rndq)^-1 * cTerm rndq qap2 i) *: (1 : rat^o)
          | i <- iota 0 1]
          [seq ((delta rndq)^-1 * cTerm rndq qap2 (l qap2 + 1 + i))
               *: (1 : rat^o)
          | i <- iota 0 1]
          [seq ((delta rndq)^-1
                * (evalPoly (fieldFr rat) (tPoly (fieldFr rat) 2) (tau rndq)
                   * tau rndq ^+ i)) *: (1 : rat^o)
          | i <- iota 0 2]).
Proof.
apply: (@setup_outcome rat rat^o rat^o 1 1 rndq qap2 2 2); reflexivity.
Defined.

Lemma pairingCheck_correct (F : fieldType) (G1 G2 GT : lmodType F)
    (e : G1 -> G2 -> GT) :
  pairing_correct e (pairingCheck e).
Proof. by move=> ps qs idfree; rewrite /pairingCheck idfree. Qed.

(** Reading a boolean off two or three successful steps in a row. *)
Lemma result_read2 (T1 T2 : Type) (m : result T1) (f : T1 -> result T2)
    (p : T1 -> T2 -> bool) (x : T1) (y : T2) :
  (if m is Ok x' then if f x' is Ok y' then p x' y' else false else false)
  = true ->
  m = Ok x -> f x = Ok y -> p x y.
Proof. by move=> H Hm Hf; move: H; rewrite Hm Hf. Qed.

Lemma result_read3 (T1 T2 T3 : Type) (m : result T1) (f : T1 -> result T2)
    (g : T1 -> T2 -> result T3) (p : T1 -> T2 -> T3 -> bool)
    (x : T1) (y : T2) (z : T3) :
  (if m is Ok x' then
     if f x' is Ok y' then if g x' y' is Ok z' then p x' y' z' else false
     else false
   else false) = true ->
  m = Ok x -> f x = Ok y -> g x y = Ok z -> p x y z.
Proof. by move=> H Hm Hf Hg; move: H; rewrite Hm Hf Hg. Qed.

Lemma prove_verify_outcome_witness :
  (trustedSetup <- setup (fieldFr rat) (moduleG (1 : rat^o))
                     (moduleG (1 : rat^o)) rndq qap2 ;;
   pv <- prove (fieldFr rat) (moduleG (1 : rat^o)) (moduleG (1 : rat^o))
           (pairingCheck mulPairing) 2%:R 3%:R trustedSetup qap2 witness1q
           true ;;
   verify (fieldFr rat) (moduleG (1 : rat^o)) (pairingCheck mulPairing)
     pv.1 (take (l qap2) witness1q) pv.2)
  = Ok true.
Proof.
have [proof [vk [pubSum [Hp Hf]]]] :=
  @prove_verify_outcome rat rat^o rat^o rat^o 1 1 mulPairing
    (pairingCheck mulPairing) rndq 2%:R 3%:R qap2 witness1q 2 2
    mulPairing_bilinear (pairingCheck_correct mulPairing)
    (erefl true) (erefl 2%N) (erefl true) (erefl true) (erefl true)
    (erefl false).
apply.
apply: (@result_read2 _ _ _
          (fun pv => foldPoints (moduleG (1 : rat^o))
                       (VerificationKey.cTauPublicG1 pv.2)
                       (1 :: take (l qap2) witness1q))
          (fun pv P =>
             identity_free
               [:: - pv.1.1.1; VerificationKey.alphaG1 pv.2; P; pv.1.1.2]
               [:: pv.1.2; VerificationKey.betaG2 pv.2;
                   VerificationKey.gammaG2 pv.2;
                   VerificationKey.deltaG2 pv.2])
          (proof, vk) pubSum _ Hp Hf).
by vm_compute.
Defined.

Lemma verify_public_inputs_witness :
  exists proof vk,
    (trustedSetup <- setup (fieldFr rat) (moduleG (1 : rat^o))
                       (moduleG (1 : rat^o)) rndq qap3q ;;
     prove (fieldFr rat) (moduleG (1 : rat^o)) (moduleG (1 : rat^o))
       (pairingCheck mulPairing) 2%:R 3%:R trustedSetup qap3q witness42q
       false) = Ok (proof, vk) /\
    verify (fieldFr rat) (moduleG (1 : rat^o)) (pairingCheck mulPairing)
      proof (ratPoly [:: Posz 5]) vk = Ok false.
Proof.
have [proof [vk [Hp H]]] :=
  @verify_public_inputs rat rat^o rat^o rat^o 1 1 mulPairing
    (pairingCheck mulPairing) rndq 2%:R 3%:R qap3q witness42q 3 2
    mulPairing_bilinear (pairingCheck_correct mulPairing)
    (erefl true) (erefl 3%N) (erefl true) (erefl true) (erefl true)
    (erefl false) (erefl true) (erefl true).
exists proof, vk; split; first exact: Hp.
have [pubSum Hf ->] := H (ratPoly [:: Posz 5]) (erefl 1%N).
  apply: (@result_read2 _ _ _
            (fun pv => foldPoints (moduleG (1 : rat^o))
                         (VerificationKey.cTauPublicG1 pv.2)
                         (1 :: ratPoly [:: Posz 5]))
            (fun pv P =>
               identity_free
                 [:: - pv.1.1.1; VerificationKey.alphaG1 pv.2; P; pv.1.1.2]
                 [:: pv.1.2; VerificationKey.betaG2 pv.2;
                     VerificationKey.gammaG2 pv.2;
                     VerificationKey.deltaG2 pv.2])
            (proof, vk) pubSum _ Hp Hf).
  by vm_compute.
have -> : index_iota 0 (l qap3q + 1) = [:: 0; 1]%N by [].
rewrite !big_cons big_nil.
by vm_compute.
Defined.

Lemma pipeline_outcome_witness :
  pipeline (fieldFr rat) (moduleG (1 : rat^o)) (moduleG (1 : rat^o))
    (pairingCheck mulPairing) rndq 2%:R 3%:R 0 A2q B2q C2q witness1q true
  = Ok true.
Proof.
have [qap [proof [vk [pubSum [Hq Hp Hf]]]]] :=
  @pipeline_outcome rat rat^o rat^o rat^o 1 1 mulPairing
    (pairingCheck mulPairing) rndq 2%:R 3%:R 0 A2q B2q C2q witness1q 2 2
    mulPairing_bilinear (pairingCheck_correct mulPairing)
    (erefl true) (erefl true) (erefl true) (erefl 2%N) (erefl true)
    (erefl true) (erefl true).
apply.
apply: (@result_read3 _ _ _ _
          (fun qap =>
             trustedSetup <- setup (fieldFr rat) (moduleG (1 : rat^o))
                               (moduleG (1 : rat^o)) rndq qap ;;
             prove (fieldFr rat) (moduleG (1 : rat^o)) (moduleG (1 : rat^o))
               (pairingCheck mulPairing) 2%:R 3%:R trustedSetup qap
               witness1q false)
          (fun qap pv => foldPoints (moduleG (1 : rat^o))
                           (VerificationKey.cTauPublicG1 pv.2)
                           (1 :: take 0 witness1q))
          (fun qap pv P =>
             identity_free
               [:: - pv.1.1.1; VerificationKey.alphaG1 pv.2; P; pv.1.1.2]
               [:: pv.1.2; VerificationKey.betaG2 pv.2;
                   VerificationKey.gammaG2 pv.2;
                   VerificationKey.deltaG2 pv.2])
          qap (proof, vk) pubSum _ Hq Hp Hf).
by vm_compute.
Defined.

End MoreWitnesses.
